(** * ReleaseStore: the Helm release store of the renderer

    A shallow embedding of
    [src/renderer/components/+apps-releases/release.store.ts].

    The store is a MobX object whose methods are [async] functions.  Every
    such function runs synchronously up to its [await], and is resumed when
    the awaited promise settles.  The embedding therefore splits each
    [async] method [f] in two: [f], the synchronous prefix, which leaves a
    suspended task behind, and [f_resume], the code after the [await].
    Suspended tasks live in a table of the [World]; the events of the
    outside (a reaction firing, a caller invoking a method, a request
    settling) drive the world through [step].  A task is resumed in the
    step in which the promise that it awaits settles.

    The file has the model first, then the vocabulary in which the
    properties are stated, then the properties. *)

From stdpp Require Import gmap strings list fin_maps sorting.

(** ** Domain objects *)

(** Modelled from the spec: the [HelmRelease] class lives in
    [common/k8s-api/endpoints/helm-releases.api], which is not part of the
    sources.  An item has a name, a namespace and an opaque payload; its
    identity is the pair (namespace, name). *)
Module HelmRelease.
Record t := mk { getName : string; getNs : string; getRevision : nat }.
Definition getId (r : t) : string * string := (getNs r, getName r).
#[global] Instance eq_dec : EqDecision t.
Proof. solve_decision. Defined.
End HelmRelease.

(** Modelled from the spec: the [Secret] class is not part of the sources.
    A secondary item has a globally unique id, a namespace and a label set,
    a mapping from string to string. *)
Module Secret.
Record t := mk { getId : string; getNs : string; getLabels : gmap string string }.
#[global] Instance eq_dec : EqDecision t.
Proof. solve_decision. Defined.
End Secret.

(** [lodash/isEqual] on the two sides of the comparison in
    [watchAssociatedSecrets]: the left side is always a label set, the right
    side is [undefined] when the id is unknown ([?.]).  Equality is
    structural. *)
Definition isEqual (a b : option (gmap string string)) : bool := bool_decide (a = b).

(** ** Promises *)

(** What a rejected request carries; [loadAll] reads its [error] field. *)
Record ApiError := { error : option string }.

#[global] Instance ApiError_eq_dec : EqDecision ApiError.
Proof. solve_decision. Defined.

Inductive Outcome (A : Type) :=
| Fulfilled (v : A)
| Rejected (e : ApiError).
Arguments Fulfilled {A} v.
Arguments Rejected {A} e.

Definition is_fulfilled {A} (o : Outcome A) : bool :=
  match o with Fulfilled _ => true | Rejected _ => false end.

(** [Promise.all] over [n] promises: one slot per input promise, filled when
    that promise fulfils.  It fulfils with the values in input order once
    every slot is filled and rejects with the first rejection it hears of. *)
Inductive Progress (A : Type) :=
| Waiting (slots : list (option A))
| Done (o : Outcome (list A)).
Arguments Waiting {A} slots.
Arguments Done {A} o.

Definition all_of {A} (n : nat) : list (option A) := replicate n None.

Definition collect {A} (slots : list (option A)) : option (list A) :=
  mapM id slots.

Definition poll {A} (slots : list (option A)) : Progress A :=
  match collect slots with
  | Some vs => Done (Fulfilled vs)
  | None => Waiting slots
  end.

(** The [i]-th input promise settles with [o].  A promise settles once: a
    slot that is filled already, or that does not exist, is left alone. *)
Definition deliver {A} (i : nat) (o : Outcome A) (slots : list (option A)) : Progress A :=
  match slots !! i with
  | Some None =>
      match o with
      | Rejected e => Done (Rejected e)
      | Fulfilled v => poll (<[i := Some v]> slots)
      end
  | _ => Waiting slots
  end.

(** ** The API endpoints, as requests sent to the cluster *)

Inductive Request :=
| listReleases (namespace : option string)
| createRelease (payload : string)
| updateRelease (name namespace payload : string)
| rollbackRelease (name namespace : string) (revision : nat)
| deleteRelease (name namespace : string).

#[global] Instance Request_eq_dec : EqDecision Request.
Proof. solve_decision. Defined.

(** ** The store and its collaborators *)

(** [ItemStore] (in [common/item.store], not part of the sources) declares
    the observable fields that the store inherits. *)
Record ReleaseStore := {
  items : list HelmRelease.t;
  isLoading : bool;
  isLoaded : bool;
  failedLoading : bool;
  selectedItemsIds : gset (string * string);
  releaseSecrets : gmap string Secret.t;
}.

(** [dependencies.namespaceStore.context] *)
Record ClusterContext := {
  contextNamespaces : list string;
  allNamespaces : option (list string);
  accessibleNamespaces : list string;
}.

(** What is observable from outside the store. *)
Inductive Effect :=
| Sent (tid : nat) (r : Request)
| Warned (e : ApiError)
| Notified (message : string)
| Returned (tid : nat) (o : Outcome string)
| Removed (tid : nat) (o : Outcome unit)
| RemovedSelected (tid : nat) (o : Outcome (list unit)).

(** What [loadItems] returned to [loadAll]: the promise of [listReleases()],
    or [Promise.all] over the per-namespace promises. *)
Inductive LoadItems :=
| ListAll
| PerNamespace (slots : list (option (list HelmRelease.t))).

Inductive Mutator := Create | Update | Rollback.

(** An [async] call suspended at its [await]. *)
Inductive Task :=
| LoadAll (awaited : LoadItems)
| Mutate (m : Mutator)
| Remove (item : HelmRelease.t) (listener : option (nat * nat))
| RemoveSelected (slots : list (option unit)).

Record World := {
  store : ReleaseStore;
  context : ClusterContext;
  secretsStore : list Secret.t;
  tasks : gmap nat Task;
  spawned : nat;
  log : list Effect;
}.

(** *** Field updates *)

Definition set_items (v : list HelmRelease.t) (s : ReleaseStore) : ReleaseStore :=
  {| items := v; isLoading := isLoading s; isLoaded := isLoaded s;
     failedLoading := failedLoading s; selectedItemsIds := selectedItemsIds s;
     releaseSecrets := releaseSecrets s |}.
Definition set_isLoading (v : bool) (s : ReleaseStore) : ReleaseStore :=
  {| items := items s; isLoading := v; isLoaded := isLoaded s;
     failedLoading := failedLoading s; selectedItemsIds := selectedItemsIds s;
     releaseSecrets := releaseSecrets s |}.
Definition set_isLoaded (v : bool) (s : ReleaseStore) : ReleaseStore :=
  {| items := items s; isLoading := isLoading s; isLoaded := v;
     failedLoading := failedLoading s; selectedItemsIds := selectedItemsIds s;
     releaseSecrets := releaseSecrets s |}.
Definition set_failedLoading (v : bool) (s : ReleaseStore) : ReleaseStore :=
  {| items := items s; isLoading := isLoading s; isLoaded := isLoaded s;
     failedLoading := v; selectedItemsIds := selectedItemsIds s;
     releaseSecrets := releaseSecrets s |}.
Definition set_selectedItemsIds (v : gset (string * string)) (s : ReleaseStore) : ReleaseStore :=
  {| items := items s; isLoading := isLoading s; isLoaded := isLoaded s;
     failedLoading := failedLoading s; selectedItemsIds := v;
     releaseSecrets := releaseSecrets s |}.
Definition set_releaseSecrets (v : gmap string Secret.t) (s : ReleaseStore) : ReleaseStore :=
  {| items := items s; isLoading := isLoading s; isLoaded := isLoaded s;
     failedLoading := failedLoading s; selectedItemsIds := selectedItemsIds s;
     releaseSecrets := v |}.

Definition with_store (f : ReleaseStore → ReleaseStore) (w : World) : World :=
  {| store := f (store w); context := context w; secretsStore := secretsStore w;
     tasks := tasks w; spawned := spawned w; log := log w |}.
Definition with_context (c : ClusterContext) (w : World) : World :=
  {| store := store w; context := c; secretsStore := secretsStore w;
     tasks := tasks w; spawned := spawned w; log := log w |}.
Definition with_secretsStore (l : list Secret.t) (w : World) : World :=
  {| store := store w; context := context w; secretsStore := l;
     tasks := tasks w; spawned := spawned w; log := log w |}.
Definition with_tasks (f : gmap nat Task → gmap nat Task) (w : World) : World :=
  {| store := store w; context := context w; secretsStore := secretsStore w;
     tasks := f (tasks w); spawned := spawned w; log := log w |}.
Definition emit (e : Effect) (w : World) : World :=
  {| store := store w; context := context w; secretsStore := secretsStore w;
     tasks := tasks w; spawned := spawned w; log := log w ++ [e] |}.

(** A new [async] call: its task id. *)
Definition fresh (w : World) : nat * World :=
  (spawned w,
   {| store := store w; context := context w; secretsStore := secretsStore w;
      tasks := tasks w; spawned := S (spawned w); log := log w |}).

Definition suspend (tid : nat) (t : Task) : World → World :=
  with_tasks (insert tid t).
Definition finish (tid : nat) : World → World :=
  with_tasks (delete tid).
Definition send (tid : nat) (r : Request) : World → World :=
  emit (Sent tid r).

(** ** What the store inherits from [ItemStore] *)

(** Modelled from the spec: [ItemStore.sortItems] is not part of the
    sources.  The item cache is ordered by a comparator of the subsystem,
    by name; the sort is stable, as [lodash/orderBy] is. *)
Fixpoint insert_by_name (x : HelmRelease.t) (l : list HelmRelease.t) : list HelmRelease.t :=
  match l with
  | [] => [x]
  | y :: l' =>
      if String.leb (HelmRelease.getName x) (HelmRelease.getName y)
      then x :: l
      else y :: insert_by_name x l'
  end.

Definition sortItems (l : list HelmRelease.t) : list HelmRelease.t :=
  foldr insert_by_name [] l.

(** Modelled from the spec: the [selectedItems] getter of [ItemStore] is not
    part of the sources.  The items of the cache that are in the client-side
    set of selected items. *)
Definition selectedItems (s : ReleaseStore) : list HelmRelease.t :=
  filter (λ item, HelmRelease.getId item ∈ selectedItemsIds s) (items s).

(** Modelled from the spec: [secretsStore.getByLabel] is not part of the
    sources.  The secondary items whose label set has every label of the
    filter. *)
Definition getByLabel (labels : list (string * string)) (l : list Secret.t) : list Secret.t :=
  filter (λ s, forallb (λ kv, bool_decide (Secret.getLabels s !! kv.1 = Some kv.2)) labels = true) l.

(** [observable.map.replace(entries)]: the map of the entries, a later entry
    winning over an earlier one with the same key. *)
Definition replace (entries : list (string * Secret.t)) : gmap string Secret.t :=
  foldl (λ m kv, <[kv.1 := kv.2]> m) ∅ entries.

(** ** ReleaseStore *)

Definition getReleaseSecrets (w : World) : list (string * Secret.t) :=
  (λ s, (Secret.getId s, s)) <$> getByLabel [("owner", "helm")] (secretsStore w).

(** [getByLabel({ owner, name }).find(secret => secret.getNs() == release.getNs())] *)
Definition getReleaseSecret (release : HelmRelease.t) (w : World) : option Secret.t :=
  head (filter (λ secret, Secret.getNs secret = HelmRelease.getNs release)
          (getByLabel [("owner", "helm"); ("name", HelmRelease.getName release)]
             (secretsStore w))).

Definition isLoadingAll (c : ClusterContext) (namespaces : list string) : bool :=
  match allNamespaces c with
  | None => false
  | Some all =>
      (1 <? length all)
      && (length (accessibleNamespaces c) =? 0)
      && forallb (λ ns, bool_decide (ns ∈ namespaces)) all
  end.

(** [loadItems], called on behalf of task [tid]: the requests go out now,
    the promise comes back. *)
Definition loadItems (tid : nat) (namespaces : list string) (w : World) : LoadItems * World :=
  if isLoadingAll (context w) namespaces
  then (ListAll, send tid (listReleases None) w)
  else (PerNamespace (all_of (length namespaces)),
        foldl (λ w ns, send tid (listReleases (Some ns)) w) w namespaces).

Definition loadAll (namespaces : list string) (w : World) : World :=
  let '(tid, w) := fresh w in
  let w := with_store (set_isLoading true) w in
  let w := with_store (set_isLoaded false) w in
  let '(awaited, w) := loadItems tid namespaces w in
  suspend tid (LoadAll awaited) w.

Definition truthy (s : option string) : option string :=
  match s with
  | Some m => if bool_decide (m = "") then None else Some m
  | None => None
  end.

(** [loadAll] after its [await]: the [try] block goes on, or the [catch]
    block runs; [finally] comes last. *)
Definition loadAll_resume (o : Outcome (list HelmRelease.t)) (w : World) : World :=
  let w :=
    match o with
    | Fulfilled fetched =>
        let w := with_store (set_items (sortItems fetched)) w in
        let w := with_store (set_isLoaded true) w in
        with_store (set_failedLoading false) w
    | Rejected e =>
        let w := with_store (set_failedLoading true) w in
        let w := emit (Warned e) w in
        match truthy (error e) with
        | Some m => emit (Notified m) w
        | None => w
        end
    end in
  with_store (set_isLoading false) w.

Definition loadFromContextNamespaces (w : World) : World :=
  loadAll (contextNamespaces (context w)) w.

(** The callback of the reaction set up by [watchAssociatedSecrets]. *)
Definition watchAssociatedSecrets (w : World) : World :=
  if isLoading (store w) then w else
  let newSecrets := getReleaseSecrets w in
  let amountChanged := negb (length newSecrets =? size (releaseSecrets (store w))) in
  let labelsChanged :=
    existsb (λ kv, negb (isEqual (Some (Secret.getLabels kv.2))
                           (Secret.getLabels <$> releaseSecrets (store w) !! kv.1)))
            newSecrets in
  let w := if amountChanged || labelsChanged then loadFromContextNamespaces w else w in
  with_store (set_releaseSecrets (replace newSecrets)) w.

(** The callback of the reaction set up by [watchSelectedNamespaces]. *)
Definition watchSelectedNamespaces (namespaces : list string) (w : World) : World :=
  loadAll namespaces w.

(** The callback of the [when] of the constructor. *)
Definition whenSecretsLoaded (w : World) : World :=
  with_store (set_releaseSecrets (replace (getReleaseSecrets w))) w.

(** *** create, update, rollback *)

Definition create (payload : string) (w : World) : World :=
  let '(tid, w) := fresh w in
  suspend tid (Mutate Create) (send tid (createRelease payload) w).

Definition create_resume (tid : nat) (o : Outcome string) (w : World) : World :=
  match o with
  | Fulfilled response =>
      let w := if isLoaded (store w) then loadFromContextNamespaces w else w in
      emit (Returned tid (Fulfilled response)) w
  | Rejected e => emit (Returned tid (Rejected e)) w
  end.

Definition update (name namespace payload : string) (w : World) : World :=
  let '(tid, w) := fresh w in
  suspend tid (Mutate Update) (send tid (updateRelease name namespace payload) w).

Definition update_resume (tid : nat) (o : Outcome string) (w : World) : World :=
  match o with
  | Fulfilled response =>
      let w := if isLoaded (store w) then loadFromContextNamespaces w else w in
      emit (Returned tid (Fulfilled response)) w
  | Rejected e => emit (Returned tid (Rejected e)) w
  end.

Definition rollback (name namespace : string) (revision : nat) (w : World) : World :=
  let '(tid, w) := fresh w in
  suspend tid (Mutate Rollback) (send tid (rollbackRelease name namespace revision) w).

Definition rollback_resume (tid : nat) (o : Outcome string) (w : World) : World :=
  match o with
  | Fulfilled response =>
      let w := if isLoaded (store w) then loadFromContextNamespaces w else w in
      emit (Returned tid (Fulfilled response)) w
  | Rejected e => emit (Returned tid (Rejected e)) w
  end.

(** *** remove, removeSelectedItems *)

(** Modelled from the spec: [ItemStore.removeItem] is not part of the
    sources.  It invokes the write operation and awaits it. *)
Definition removeItem (item : HelmRelease.t) (request : Request) (w : World) : nat * World :=
  let '(tid, w) := fresh w in
  (tid, suspend tid (Remove item None) (send tid request w)).

Definition remove (release : HelmRelease.t) (w : World) : nat * World :=
  removeItem release
    (deleteRelease (HelmRelease.getName release) (HelmRelease.getNs release)) w.

(** The promise of task [tid] settles with [o]: the [Promise.all] that
    listens to it, if any, hears of it, and settles in turn when this decides
    it. *)
Definition notify (listener : option (nat * nat)) (o : Outcome unit) (w : World) : World :=
  match listener with
  | None => w
  | Some (parent, i) =>
      match tasks w !! parent with
      | Some (RemoveSelected slots) =>
          match deliver i o slots with
          | Waiting slots' => suspend parent (RemoveSelected slots') w
          | Done o' => emit (RemovedSelected parent o') (finish parent w)
          end
      | _ => w
      end
  end.

(** Modelled from the spec: [ItemStore.removeItem] after its [await].  On
    success a reload for the current scope is triggered if the cache is
    loaded, and the item leaves the set of selected items; on failure the
    error goes to the caller and nothing is touched. *)
Definition removeItem_resume (tid : nat) (item : HelmRelease.t)
    (listener : option (nat * nat)) (o : Outcome unit) (w : World) : World :=
  match o with
  | Fulfilled _ =>
      let w := if isLoaded (store w) then loadFromContextNamespaces w else w in
      let w := with_store (λ s, set_selectedItemsIds
                 (selectedItemsIds s ∖ {[HelmRelease.getId item]}) s) w in
      notify listener (Fulfilled ()) (emit (Removed tid (Fulfilled ())) w)
  | Rejected e =>
      notify listener (Rejected e) (emit (Removed tid (Rejected e)) w)
  end.

(** [this.selectedItems.map(this.remove)] *)
Fixpoint map_remove (l : list HelmRelease.t) (w : World) : list nat * World :=
  match l with
  | [] => ([], w)
  | item :: l' =>
      let '(tid, w) := remove item w in
      let '(tids, w) := map_remove l' w in
      (tid :: tids, w)
  end.

Definition listen (parent i : nat) (t : Task) : Task :=
  match t with
  | Remove item _ => Remove item (Some (parent, i))
  | _ => t
  end.

(** [Promise.all(promises)] registers itself with each input promise. *)
Fixpoint subscribe (parent i : nat) (children : list nat) (w : World) : World :=
  match children with
  | [] => w
  | child :: rest =>
      subscribe parent (S i) rest (with_tasks (alter (listen parent i) child) w)
  end.

Definition removeSelectedItems (w : World) : World :=
  let '(children, w) := map_remove (selectedItems (store w)) w in
  let '(tid, w) := fresh w in
  let w := subscribe tid 0 children w in
  suspend tid (RemoveSelected (all_of (length children))) w.

(** ** The world around the store *)

Inductive Event :=
| NamespacesSelected (namespaces : list string)
| SecretsLoaded
| SecretsChanged (secrets : list Secret.t)
| CallCreate (payload : string)
| CallUpdate (name namespace payload : string)
| CallRollback (name namespace : string) (revision : nat)
| CallRemove (release : HelmRelease.t)
| CallRemoveSelectedItems
| ListSettled (tid i : nat) (o : Outcome (list HelmRelease.t))
| WriteSettled (tid : nat) (o : Outcome string)
| DeleteSettled (tid : nat) (o : Outcome unit)
| Flush (tid : nat).

Definition set_contextNamespaces (namespaces : list string) (c : ClusterContext) : ClusterContext :=
  {| contextNamespaces := namespaces; allNamespaces := allNamespaces c;
     accessibleNamespaces := accessibleNamespaces c |}.

(** [items => items.flat()], behind [Promise.all]. *)
Definition flat (o : Outcome (list (list HelmRelease.t))) : Outcome (list HelmRelease.t) :=
  match o with
  | Fulfilled fetched => Fulfilled (concat fetched)
  | Rejected e => Rejected e
  end.

(** A request of a reload settles. *)
Definition list_settled (tid i : nat) (o : Outcome (list HelmRelease.t)) (w : World) : World :=
  match tasks w !! tid with
  | Some (LoadAll ListAll) =>
      if i =? 0 then loadAll_resume o (finish tid w) else w
  | Some (LoadAll (PerNamespace slots)) =>
      match deliver i o slots with
      | Waiting slots' => suspend tid (LoadAll (PerNamespace slots')) w
      | Done o' => loadAll_resume (flat o') (finish tid w)
      end
  | _ => w
  end.

Definition write_settled (tid : nat) (o : Outcome string) (w : World) : World :=
  match tasks w !! tid with
  | Some (Mutate Create) => create_resume tid o (finish tid w)
  | Some (Mutate Update) => update_resume tid o (finish tid w)
  | Some (Mutate Rollback) => rollback_resume tid o (finish tid w)
  | _ => w
  end.

Definition delete_settled (tid : nat) (o : Outcome unit) (w : World) : World :=
  match tasks w !! tid with
  | Some (Remove item listener) => removeItem_resume tid item listener o (finish tid w)
  | _ => w
  end.

(** A [Promise.all] over no promise at all is fulfilled from the start; the
    task that awaits it goes on in a later microtask. *)
Definition flush (tid : nat) (w : World) : World :=
  match tasks w !! tid with
  | Some (LoadAll (PerNamespace slots)) =>
      match poll slots with
      | Done o => loadAll_resume (flat o) (finish tid w)
      | Waiting _ => w
      end
  | Some (RemoveSelected slots) =>
      match poll slots with
      | Done o => emit (RemovedSelected tid o) (finish tid w)
      | Waiting _ => w
      end
  | _ => w
  end.

Definition step (w : World) (ev : Event) : World :=
  match ev with
  | NamespacesSelected namespaces =>
      watchSelectedNamespaces namespaces
        (with_context (set_contextNamespaces namespaces (context w)) w)
  | SecretsLoaded => whenSecretsLoaded w
  | SecretsChanged secrets => watchAssociatedSecrets (with_secretsStore secrets w)
  | CallCreate payload => create payload w
  | CallUpdate name namespace payload => update name namespace payload w
  | CallRollback name namespace revision => rollback name namespace revision w
  | CallRemove release => (remove release w).2
  | CallRemoveSelectedItems => removeSelectedItems w
  | ListSettled tid i o => list_settled tid i o w
  | WriteSettled tid o => write_settled tid o w
  | DeleteSettled tid o => delete_settled tid o w
  | Flush tid => flush tid w
  end.

Definition run (w : World) (evs : list Event) : World := foldl step w evs.

(** A store as the constructor leaves it, in a cluster context. *)
Definition fresh_store : ReleaseStore :=
  {| items := []; isLoading := false; isLoaded := false; failedLoading := false;
     selectedItemsIds := ∅; releaseSecrets := ∅ |}.

Definition boot (c : ClusterContext) : World :=
  {| store := fresh_store; context := c; secretsStore := []; tasks := ∅;
     spawned := 0; log := [] |}.

(** * UserStore: the preferences of the user

    A shallow embedding of [src/common/user-store/user-store.ts].  The table
    [DESCRIPTORS] of [preferences-helpers], the update channel of
    [selected-update-channel], [getAppVersion] and [semver.gt] are not part of
    the sources: they are parameters. *)
Module UserStore.

(** A value of the settings file; an array or an object goes by its text. *)
Inductive Json :=
| JNull
| JBool (b : bool)
| JNumber (n : Z)
| JString (s : string)
| JComposite (text : string).

(** Truthiness, as [if (x)] has it. *)
Definition truthyJ (j : Json) : bool :=
  match j with
  | JNull => false
  | JBool b => b
  | JNumber n => negb (n =? 0)%Z
  | JString s => negb (bool_decide (s = ""))
  | JComposite _ => true
  end.

(** [a || b], on strings that may be undefined. *)
Definition or_else (a b : option string) : option string :=
  match truthy a with
  | Some _ => a
  | None => b
  end.

(** [resolvedShell], from the [shell] preference and [process.env]. *)
Definition resolvedShell (shell : option string) (env : gmap string string) : option string :=
  or_else (or_else shell (env !! "SHELL")) (env !! "PTYSHELL").

(** [isTableColumnHidden], from the [hiddenTableColumns] preference. *)
Definition isTableColumnHidden (hiddenTableColumns : gmap string (gset string))
    (tableId : string) (columnIds : list (option string)) : bool :=
  if length columnIds =? 0 then false else
  match hiddenTableColumns !! tableId with
  | None => false
  | Some config =>
      existsb (λ columnId,
                 match truthy columnId with
                 | Some c => bool_decide (c ∈ config)
                 | None => false
                 end) columnIds
  end.

(** [Partial<UserStoreModel>], what [fromStore] is given. *)
Record Partial := {
  storedVersion : option string;
  storedPreferences : option (gmap string Json);
}.

(** [UserStoreModel], what [toJSON] gives. *)
Record Model := {
  modelVersion : string;
  modelPreferences : gmap string Json;
}.

(** An entry of [DESCRIPTORS], for a preference with values in [V]. *)
Module Descriptor.
Record t (V : Type) := {
  fromStore : option Json → V;
  toStore : option V → option Json;
}.
Arguments fromStore {V} d j : rename.
Arguments toStore {V} d v : rename.
End Descriptor.

Section Store.

(** [V]: the values of the preferences in memory; [Channel]: the state of
    [selectedUpdateChannel]. *)
Context {V Channel : Type}.

Variable DESCRIPTORS : gmap string (Descriptor.t V).
Variable setValue : Json → Channel → Channel.
Variable channelId : Channel → string.
Variable getAppVersion : string.
Variable semver_gt : string → string → bool.

Inductive Effect :=
| Debug (message : string) (model : Partial)
| Emitted (name action : string)
| LoginItemSettings (openAtLogin openAsHidden : bool) (args : list string).

Record t := {
  lastSeenAppVersion : string;
  preferences : gmap string V;
  selectedUpdateChannel : Channel;
  log : list Effect;
}.

Definition set_lastSeenAppVersion (v : string) (s : t) : t :=
  {| lastSeenAppVersion := v; preferences := preferences s;
     selectedUpdateChannel := selectedUpdateChannel s; log := log s |}.
Definition set_preference (key : string) (v : V) (s : t) : t :=
  {| lastSeenAppVersion := lastSeenAppVersion s;
     preferences := <[key := v]> (preferences s);
     selectedUpdateChannel := selectedUpdateChannel s; log := log s |}.
Definition set_selectedUpdateChannel (c : Channel) (s : t) : t :=
  {| lastSeenAppVersion := lastSeenAppVersion s; preferences := preferences s;
     selectedUpdateChannel := c; log := log s |}.
Definition emit (e : Effect) (s : t) : t :=
  {| lastSeenAppVersion := lastSeenAppVersion s; preferences := preferences s;
     selectedUpdateChannel := selectedUpdateChannel s; log := log s ++ [e] |}.

Definition isNewVersion (s : t) : bool :=
  semver_gt getAppVersion (lastSeenAppVersion s).

(** The callback of the reaction of [startMainReactions]. *)
Definition startMainReactions (openAtLogin : bool) (s : t) : t :=
  emit (LoginItemSettings openAtLogin true ["--hidden"]) s.

(** [resetTheme]; the descriptor of [colorTheme] is there by typing. *)
Definition resetTheme (s : t) : t :=
  match DESCRIPTORS !! "colorTheme" with
  | Some d => set_preference "colorTheme" (Descriptor.fromStore d None) s
  | None => s
  end.

Definition saveLastSeenAppVersion (s : t) : t :=
  set_lastSeenAppVersion getAppVersion (emit (Emitted "app" "whats-new-seen") s).

(** [preferences?.[key]] *)
Definition stored (m : Partial) (key : string) : option Json :=
  storedPreferences m ≫= (λ p, p !! key).

(** The loop of [fromStore] over [object.entries(DESCRIPTORS)]. *)
Definition fromStore_entries (m : Partial) (s : t) : t :=
  foldl (λ s kd, set_preference kd.1 (Descriptor.fromStore kd.2 (stored m kd.1)) s)
        s (map_to_list DESCRIPTORS).

Definition fromStore (m : Partial) (s : t) : t :=
  let s := emit (Debug "UserStore.fromStore()" m) s in
  let s := match truthy (storedVersion m) with
           | Some v => set_lastSeenAppVersion v s
           | None => s
           end in
  let s := fromStore_entries m s in
  match stored m "updateChannel" with
  | Some j =>
      if truthyJ j then set_selectedUpdateChannel (setValue j (selectedUpdateChannel s)) s
      else s
  | None => s
  end.

(** [object.fromEntries]; an entry whose value is [undefined] reads like no
    entry. *)
Definition fromEntries (entries : list (string * option Json)) : gmap string Json :=
  foldl (λ o kv, match kv.2 with
                 | Some j => <[kv.1 := j]> o
                 | None => delete kv.1 o
                 end) ∅ entries.

Definition toJSON (s : t) : Model :=
  let preferences :=
    fromEntries ((λ kd, (kd.1, Descriptor.toStore kd.2 (preferences s !! kd.1)))
                   <$> map_to_list DESCRIPTORS) in
  {| modelVersion := lastSeenAppVersion s;
     modelPreferences :=
       <["updateChannel" := JString (channelId (selectedUpdateChannel s))]> preferences |}.

End Store.
End UserStore.

(** * The vocabulary of the properties *)

(** ** Reloads *)

(** The requests that [loadItems] sends for a scope on behalf of task
    [tid], and the promise that it hands to [loadAll]. *)
Definition requests (tid : nat) (c : ClusterContext) (namespaces : list string) : list Effect :=
  if isLoadingAll c namespaces
  then [Sent tid (listReleases None)]
  else (λ ns, Sent tid (listReleases (Some ns))) <$> namespaces.

Definition promise (c : ClusterContext) (namespaces : list string) : LoadItems :=
  if isLoadingAll c namespaces then ListAll
  else PerNamespace (all_of (length namespaces)).

(** The requests of the reload [tid] settle as the script says: the request
    at position [i] of the scope with outcome [o], for each [(i, o)] in
    turn. *)
Definition fetches (tid : nat) (script : list (nat * Outcome (list HelmRelease.t))) : list Event :=
  (λ io, ListSettled tid io.1 io.2) <$> script.

(** A reload has been started between [w] and [w']: the one new task is a
    suspended [loadAll]. *)
Definition reload_started (w w' : World) : Prop :=
  spawned w' = S (spawned w)
  ∧ ∃ awaited, tasks w' !! spawned w = Some (LoadAll awaited).

(** The order of the item cache. *)
Definition by_name (x y : HelmRelease.t) : Prop :=
  String.leb (HelmRelease.getName x) (HelmRelease.getName y) = true.

(** ** [Promise.all], as a function of the order in which its inputs settle *)

(** The inputs settle as the script says; the first event that decides the
    promise ends the run. *)
Fixpoint settle_all {A} (evs : list (nat * Outcome A)) (slots : list (option A)) : Progress A :=
  match evs with
  | [] => Waiting slots
  | (i, o) :: evs' =>
      match deliver i o slots with
      | Waiting slots' => settle_all evs' slots'
      | Done r => Done r
      end
  end.

(** The error of the first rejection of a script. *)
Fixpoint first_rejection {A} (evs : list (nat * Outcome A)) : option ApiError :=
  match evs with
  | [] => None
  | (_, Rejected e) :: _ => Some e
  | (_, Fulfilled _) :: evs' => first_rejection evs'
  end.

(** The slots once the fulfilments of a script are in. *)
Fixpoint fill {A} (evs : list (nat * Outcome A)) (slots : list (option A)) : list (option A) :=
  match evs with
  | [] => slots
  | (i, Fulfilled v) :: evs' => fill evs' (<[i := Some v]> slots)
  | (_, Rejected _) :: evs' => fill evs' slots
  end.

(** A script fits the slots when every input it mentions is still awaited,
    and settles once. *)
Definition fits {A} (evs : list (nat * Outcome A)) (slots : list (option A)) : Prop :=
  NoDup evs.*1 ∧ ∀ i, i ∈ evs.*1 → slots !! i = Some None.

(** Every input of [order] fulfils, the [i]-th with [f i]. *)
Definition fulfilments {A} (f : nat → A) (order : list nat) : list (nat * Outcome A) :=
  (λ i, (i, Fulfilled (f i))) <$> order.

(** ** The reaction to a change of the secrets *)

(** The staleness test of the code: the count differs, or a secret of the
    new list is unknown to the old association cache under its id, or known
    with other labels. *)
Definition stale (old : gmap string Secret.t) (new : list (string * Secret.t)) : Prop :=
  length new ≠ size old
  ∨ ∃ id s, (id, s) ∈ new
            ∧ Secret.getLabels <$> old !! id ≠ Some (Secret.getLabels s).

(** ** create, update, rollback *)

(** The events that call a mutator, with the write that the mutator sends. *)
Definition mutation (ev : Event) : option (Mutator * Request) :=
  match ev with
  | CallCreate payload => Some (Create, createRelease payload)
  | CallUpdate name namespace payload =>
      Some (Update, updateRelease name namespace payload)
  | CallRollback name namespace revision =>
      Some (Rollback, rollbackRelease name namespace revision)
  | _ => None
  end.

(** ** [isLoaded] while reloads are in flight *)

(** The event settles a reload successfully. *)
Definition commits (w : World) (ev : Event) : bool :=
  match ev with
  | ListSettled tid i o =>
      match tasks w !! tid with
      | Some (LoadAll ListAll) => (i =? 0) && is_fulfilled o
      | Some (LoadAll (PerNamespace slots)) =>
          match deliver i o slots with
          | Done (Fulfilled _) => true
          | _ => false
          end
      | _ => false
      end
  | Flush tid =>
      match tasks w !! tid with
      | Some (LoadAll (PerNamespace slots)) =>
          match poll slots with
          | Done (Fulfilled _) => true
          | _ => false
          end
      | _ => false
      end
  | _ => false
  end.

(** No event of the run settles a reload successfully. *)
Fixpoint quiet (w : World) (evs : list Event) : Prop :=
  match evs with
  | [] => True
  | ev :: evs' => commits w ev = false ∧ quiet (step w ev) evs'
  end.

(** ** remove, removeSelectedItems *)

(** The deletes that [removeSelectedItems] sends for the selection [l], the
    first of them on behalf of task [t0]. *)
Definition deletes (t0 : nat) (l : list HelmRelease.t) : list Effect :=
  imap (λ i item, Sent (t0 + i)
          (deleteRelease (HelmRelease.getName item) (HelmRelease.getNs item))) l.

(** What the caller of [removeSelectedItems] called with task id [parent]
    got back. *)
Definition aggregate (parent : nat) (l : list Effect) : list (Outcome (list unit)) :=
  omap (λ e, match e with
             | RemovedSelected t o => if decide (t = parent) then Some o else None
             | _ => None
             end) l.

(** The [Promise.all] of task [parent], if it is still waiting, hears that
    its [i]-th input has settled. *)
Definition heard (i : nat) (o : Outcome unit) (t : option Task)
    : option Task * list (Outcome (list unit)) :=
  match t with
  | Some (RemoveSelected slots) =>
      match deliver i o slots with
      | Waiting slots' => (Some (RemoveSelected slots'), [])
      | Done r => (None, [r])
      end
  | _ => (t, [])
  end.

Fixpoint heard_all (evs : list (nat * Outcome unit)) (t : option Task)
    : option Task * list (Outcome (list unit)) :=
  match evs with
  | [] => (t, [])
  | (i, o) :: evs' =>
      let '(t', r) := heard i o t in
      let '(t'', r') := heard_all evs' t' in
      (t'', r ++ r')
  end.

(** The deletes of the items of [sel] at the positions [rest] are still out;
    the [Promise.all] of task [parent] listens to them. *)
Definition pending (sel : list HelmRelease.t) (t0 parent : nat)
    (rest : list nat) (w : World) : Prop :=
  ∀ i, i ∈ rest →
    ∃ item, sel !! i = Some item
            ∧ tasks w !! (t0 + i) = Some (Remove item (Some (parent, i))).

(** The deletes settle in the order [rest], the [i]-th with [out i]. *)
Definition outcomes (out : nat → Outcome unit) (rest : list nat) : list (nat * Outcome unit) :=
  (λ i, (i, out i)) <$> rest.

Definition settlements (t0 : nat) (out : nat → Outcome unit) (rest : list nat) : list Event :=
  (λ i, DeleteSettled (t0 + i) (out i)) <$> rest.

(** ** Scenarios *)

Definition forbidden : ApiError := {| error := Some "forbidden" |}.

(** A cluster with two namespaces, of which one is selected. *)
Definition one_namespace : ClusterContext :=
  {| contextNamespaces := ["a"]; allNamespaces := Some ["a"; "b"];
     accessibleNamespaces := [] |}.

(** A cluster that exposes a single namespace. *)
Definition single_namespace_cluster : ClusterContext :=
  {| contextNamespaces := ["default"]; allNamespaces := Some ["default"];
     accessibleNamespaces := [] |}.

(** A store whose first reload has failed. *)
Definition after_failure : World :=
  run (boot one_namespace) [NamespacesSelected ["a"]; ListSettled 0 0 (Rejected forbidden)].

Definition helm_secret (id : string) : Secret.t :=
  Secret.mk id "a" {[ "owner" := "helm"; "name" := "web" ]}.

(** A loaded store that knows one secret of a release. *)
Definition one_secret : World :=
  run (boot one_namespace)
    [SecretsChanged [helm_secret "uid-1"]; ListSettled 0 0 (Fulfilled [])].

(** The scope changes from [a] to [b] while the reload for [a] is in flight:
    the world in which the second reload is about to start. *)
Definition scope_changed_again : World :=
  with_context (set_contextNamespaces ["b"] one_namespace)
    (step (boot one_namespace) (NamespacesSelected ["a"])).

(** A cluster with three namespaces, of which two are selected. *)
Definition three_namespaces : ClusterContext :=
  {| contextNamespaces := ["a"; "b"]; allNamespaces := Some ["a"; "b"; "c"];
     accessibleNamespaces := [] |}.

(** A store that has loaded one release of namespace [a]. *)
Definition one_release : World :=
  run (boot three_namespaces)
    [NamespacesSelected ["a"]; ListSettled 0 0 (Fulfilled [HelmRelease.mk "web" "a" 1])].

(** ** The specification, where the store departs from it *)

(** The specification has a reload of which a fetch is rejected leave the
    item cache at its value from before the cycle, and [failedLoading] set,
    whatever has happened while the cycle was in flight. *)
Definition nothing_committed (w : World) (namespaces : list string)
    (evs : list Event) (i : nat) (e : ApiError) : Prop :=
  let w1 := run (loadAll namespaces w) evs in
  ∀ slots,
    tasks w1 !! spawned w = Some (LoadAll (PerNamespace slots)) →
    slots !! i = Some None →
    let w' := step w1 (ListSettled (spawned w) i (Rejected e)) in
    items (store w') = items (store w) ∧ failedLoading (store w') = true.

(** The scope covers every namespace that the cluster exposes. *)
Definition covers (c : ClusterContext) (namespaces : list string) : Prop :=
  ∀ all ns, allNamespaces c = Some all → ns ∈ all → ns ∈ namespaces.

(** The fast path as the specification has it: a scope that covers the
    cluster, and no access restriction, make one [listReleases()] call. *)
Definition one_call_when_covering (w : World) (namespaces : list string) : Prop :=
  covers (context w) namespaces →
  accessibleNamespaces (context w) = [] →
  log (loadAll namespaces w) = log w ++ [Sent (spawned w) (listReleases None)].

(** The specification has [failedLoading] cleared on entering [loadAll]. *)
Definition cleared_on_entry (w : World) (namespaces : list string) : Prop :=
  failedLoading (store (loadAll namespaces w)) = false.

(** The specification has [isLoaded] set once a reload has settled, whatever
    the outcome. *)
Definition loaded_once_settled (w : World) (namespaces : list string)
    (script : list (nat * Outcome (list HelmRelease.t))) : Prop :=
  let w' := run (loadAll namespaces w) (fetches (spawned w) script) in
  tasks w' !! spawned w = None → isLoaded (store w') = true.

(** The staleness test as the specification has it: the count differs, or a
    secret that is in the old and in the new association cache has changed
    its labels. *)
Definition stale_as_specified (old : gmap string Secret.t)
    (new : list (string * Secret.t)) : Prop :=
  length new ≠ size old
  ∨ ∃ id s s', replace new !! id = Some s ∧ old !! id = Some s'
               ∧ Secret.getLabels s ≠ Secret.getLabels s'.

Definition reloads_as_specified (w : World) (secrets : list Secret.t) : Prop :=
  reload_started w (step w (SecretsChanged secrets))
  ↔ isLoading (store w) = false
    ∧ stale_as_specified (releaseSecrets (store w))
        (getReleaseSecrets (with_secretsStore secrets w)).

(** The specification has the association cache replaced on every change of
    the secrets. *)
Definition refreshed (w : World) (secrets : list Secret.t) : Prop :=
  releaseSecrets (store (step w (SecretsChanged secrets)))
  = replace (getReleaseSecrets (with_secretsStore secrets w)).

(** From the start of a reload until that reload settles [isLoaded] is
    false, and a write of a mutator that fulfils in that time starts
    nothing. *)
Definition unloaded_while_in_flight (w : World) (namespaces : list string)
    (evs : list Event) (t : nat) (response : string) : Prop :=
  let w' := run (loadAll namespaces w) evs in
  is_Some (tasks w' !! spawned w) →
  isLoaded (store w') = false
  ∧ spawned (step w' (WriteSettled t (Fulfilled response))) = spawned w'.

(** ** Reachable worlds *)

(** Task ids are handed out in order: every suspended task has an id below
    the next one. *)
Definition bounded (w : World) : Prop :=
  ∀ k, is_Some (tasks w !! k) → k < spawned w.

(** [w'] has every suspended reload of [w]. *)
Definition keeps_reloads (w w' : World) : Prop :=
  ∀ k a, tasks w !! k = Some (LoadAll a) → ∃ a', tasks w' !! k = Some (LoadAll a').

(** A reload is in flight. *)
Definition reloading (w : World) : Prop :=
  ∃ tid awaited, tasks w !! tid = Some (LoadAll awaited).

(** The effect is a [listReleases()] across all namespaces. *)
Definition lists_all (e : Effect) : Prop := ∃ tid, e = Sent tid (listReleases None).

(** ** Secrets of releases *)

(** The secret carries the label that [getReleaseSecrets] asks for. *)
Definition owned (s : Secret.t) : Prop := Secret.getLabels s !! "owner" = Some "helm".

(** The secret is one that [getReleaseSecret] accepts for the release. *)
Definition secret_of (release : HelmRelease.t) (s : Secret.t) : Prop :=
  Secret.getLabels s !! "owner" = Some "helm"
  ∧ Secret.getLabels s !! "name" = Some (HelmRelease.getName release)
  ∧ Secret.getNs s = HelmRelease.getNs release.

(** ** Further scenarios *)

(** A cluster on which the user may see one of two namespaces only. *)
Definition restricted_cluster : ClusterContext :=
  {| contextNamespaces := ["a"; "b"]; allNamespaces := Some ["a"; "b"];
     accessibleNamespaces := ["a"] |}.

(** A cluster with two namespaces, both selected, and no restriction. *)
Definition two_namespaces : ClusterContext :=
  {| contextNamespaces := ["a"; "b"]; allNamespaces := Some ["a"; "b"];
     accessibleNamespaces := [] |}.

(** A preference that is a string, stored when it is not the default. *)
Definition string_preference (fallback : string) : UserStore.Descriptor.t string :=
  {| UserStore.Descriptor.fromStore j :=
       match j with
       | Some (UserStore.JString s) => s
       | _ => fallback
       end;
     UserStore.Descriptor.toStore v :=
       match v with
       | Some s => if bool_decide (s = fallback) then None else Some (UserStore.JString s)
       | None => None
       end |}.

Definition two_preferences : gmap string (UserStore.Descriptor.t string) :=
  {[ "shell" := string_preference ""; "colorTheme" := string_preference "lens-dark" ]}.

(** An update channel that goes by its id. *)
Definition channel_by_id (j : UserStore.Json) (current : string) : string :=
  match j with
  | UserStore.JString s => s
  | _ => current
  end.

Definition settings_file : UserStore.Partial :=
  {| UserStore.storedVersion := Some "5.4.0";
     UserStore.storedPreferences :=
       Some {[ "shell" := UserStore.JString "/bin/zsh";
               "telemetry" := UserStore.JBool true ]} |}.

Definition blank_store : @UserStore.t string string :=
  {| UserStore.lastSeenAppVersion := "0.0.0"; UserStore.preferences := ∅;
     UserStore.selectedUpdateChannel := "latest"; UserStore.log := [] |}.

(** * Properties *)

(** ** [loadAll] before and after its [await] *)

Lemma send_each tid (l : list string) w :
  foldl (λ w ns, send tid (listReleases (Some ns)) w) w l =
  {| store := store w; context := context w; secretsStore := secretsStore w;
     tasks := tasks w; spawned := spawned w;
     log := log w ++ ((λ ns, Sent tid (listReleases (Some ns))) <$> l) |}.
Proof.
  revert w. induction l as [|ns l IH]; intros w; simpl.
  - rewrite app_nil_r. by destruct w.
  - rewrite IH. simpl. by rewrite <- app_assoc.
Qed.

Lemma loadAll_unfold namespaces w :
  loadAll namespaces w =
  {| store := set_isLoaded false (set_isLoading true (store w));
     context := context w; secretsStore := secretsStore w;
     tasks := <[spawned w := LoadAll (promise (context w) namespaces)]> (tasks w);
     spawned := S (spawned w);
     log := log w ++ requests (spawned w) (context w) namespaces |}.
Proof.
  unfold loadAll, loadItems, requests, promise. simpl.
  destruct (isLoadingAll (context w) namespaces) eqn:E; simpl.
  - reflexivity.
  - by rewrite send_each.
Qed.

Lemma loadAll_resume_items_rejected e w :
  items (store (loadAll_resume (Rejected e) w)) = items (store w).
Proof. unfold loadAll_resume. simpl. by destruct (truthy (error e)). Qed.

Lemma loadAll_resume_failedLoading o w :
  failedLoading (store (loadAll_resume o w)) = negb (is_fulfilled o).
Proof.
  unfold loadAll_resume. destruct o as [fetched|e]; simpl; [done|].
  by destruct (truthy (error e)).
Qed.

Lemma loadAll_resume_isLoaded_rejected e w :
  isLoaded (store (loadAll_resume (Rejected e) w)) = isLoaded (store w).
Proof. unfold loadAll_resume. simpl. by destruct (truthy (error e)). Qed.

Lemma loadAll_resume_tasks o w :
  tasks (loadAll_resume o w) = tasks w.
Proof.
  unfold loadAll_resume. destruct o as [fetched|e]; simpl; [done|].
  by destruct (truthy (error e)).
Qed.

Lemma loadAll_resume_spawned o w :
  spawned (loadAll_resume o w) = spawned w.
Proof.
  unfold loadAll_resume. destruct o as [fetched|e]; simpl; [done|].
  by destruct (truthy (error e)).
Qed.

(** ** The order of the item cache *)



Lemma insert_by_name_hd y x l :
  by_name y x → HdRel by_name y l → HdRel by_name y (insert_by_name x l).
Proof.
  intros Hyx Hl. destruct l as [|z l]; simpl.
  - by constructor.
  - destruct (String.leb _ _); constructor; [done|].
    by inversion Hl.
Qed.

Lemma insert_by_name_sorted x l :
  Sorted by_name l → Sorted by_name (insert_by_name x l).
Proof.
  induction 1 as [|y l Hs IH Hhd]; simpl.
  - by repeat constructor.
  - destruct (String.leb (HelmRelease.getName x) (HelmRelease.getName y)) eqn:E.
    + constructor; [by constructor|]. by constructor.
    + constructor; [done|]. apply insert_by_name_hd; [|done].
      unfold by_name.
      destruct (String.leb_total (HelmRelease.getName x) (HelmRelease.getName y));
        congruence.
Qed.

Lemma sortItems_sorted l : Sorted by_name (sortItems l).
Proof.
  induction l as [|x l IH]; [constructor|].
  by apply insert_by_name_sorted.
Qed.

(** ** [Promise.all] *)

Lemma collect_None {A} (slots : list (option A)) i :
  slots !! i = Some None → collect slots = None.
Proof.
  intros Hi. unfold collect.
  destruct (mapM id slots) as [vs|] eqn:E; [|done].
  apply mapM_Some_1 in E.
  destruct (Forall2_lookup_l _ _ _ _ _ E Hi) as (v & _ & Hv). discriminate.
Qed.

Lemma poll_waiting {A} (slots : list (option A)) i :
  slots !! i = Some None → poll slots = Waiting slots.
Proof. intros Hi. unfold poll. by rewrite (collect_None _ _ Hi). Qed.

Lemma collect_Some {A} (vs : list A) : collect (Some <$> vs) = Some vs.
Proof.
  unfold collect. apply mapM_Some_2.
  induction vs; constructor; done.
Qed.

Lemma first_rejection_elem {A} (evs : list (nat * Outcome A)) e :
  first_rejection evs = Some e → ∃ i, (i, Rejected e) ∈ evs.
Proof.
  induction evs as [|[i [v|e']] evs IH]; simpl; intros H; [done| |].
  - destruct (IH H) as [j Hj]. exists j. by right.
  - injection H as ->. exists i. by left.
Qed.

Lemma fits_cons_fulfilled {A} i (v : A) o evs slots :
  fits ((i, o) :: evs) slots → fits evs (<[i := Some v]> slots).
Proof.
  intros [Hnd Hin]. rewrite fmap_cons in Hnd. simpl in Hnd.
  apply NoDup_cons in Hnd as [Hi Hnd]. split; [done|].
  intros j Hj. rewrite list_lookup_insert_ne.
  - apply Hin. rewrite fmap_cons. by right.
  - intros ->. done.
Qed.

Lemma fits_cons_skip {A} i (o : Outcome A) evs slots :
  fits ((i, o) :: evs) slots → fits evs slots.
Proof.
  intros [Hnd Hin]. rewrite fmap_cons in Hnd. simpl in Hnd.
  apply NoDup_cons in Hnd as [Hi Hnd]. split; [done|].
  intros j Hj. apply Hin. rewrite fmap_cons. by right.
Qed.

Lemma fits_head {A} i (o : Outcome A) evs slots :
  fits ((i, o) :: evs) slots → slots !! i = Some None.
Proof. intros [_ Hin]. apply Hin. rewrite fmap_cons. by left. Qed.

(** The first rejection decides. *)
Lemma settle_all_rejected {A} (evs : list (nat * Outcome A)) slots e :
  fits evs slots → first_rejection evs = Some e →
  settle_all evs slots = Done (Rejected e).
Proof.
  revert slots. induction evs as [|[i [v|e']] evs IH]; intros slots Hfit H; simpl in *.
  - done.
  - unfold deliver. rewrite (fits_head _ _ _ _ Hfit).
    destruct (first_rejection_elem _ _ H) as [j Hj].
    assert (Hjs : <[i := Some v]> slots !! j = Some None).
    { apply (fits_cons_fulfilled i v) in Hfit. apply Hfit.
      apply list_elem_of_fmap. by exists (j, Rejected e). }
    rewrite (poll_waiting _ _ Hjs).
    apply IH; [|done]. by eapply fits_cons_fulfilled.
  - unfold deliver. rewrite (fits_head _ _ _ _ Hfit). by injection H as ->.
Qed.

(** Without a rejection, the last fulfilment decides, if it fills the last
    slot. *)
Lemma settle_all_fulfilled {A} (evs : list (nat * Outcome A)) slots :
  fits evs slots → first_rejection evs = None → evs ≠ [] →
  settle_all evs slots = poll (fill evs slots).
Proof.
  revert slots. induction evs as [|[i [v|e']] evs IH]; intros slots Hfit H Hne; simpl in *.
  - done.
  - unfold deliver. rewrite (fits_head _ _ _ _ Hfit).
    destruct evs as [|[j o] evs'].
    + simpl. by destruct (poll (<[i:=Some v]> slots)).
    + assert (Hjs : <[i := Some v]> slots !! j = Some None).
      { apply (fits_cons_fulfilled i v) in Hfit. by eapply fits_head. }
      rewrite (poll_waiting _ _ Hjs).
      apply IH; [|done|done]. by eapply fits_cons_fulfilled.
  - done.
Qed.


Lemma fulfilments_indices {A} (f : nat → A) order : (fulfilments f order).*1 = order.
Proof.
  unfold fulfilments.
  induction order as [|i order IH]; [done|].
  rewrite !fmap_cons. simpl. by f_equal.
Qed.

Lemma fulfilments_no_rejection {A} (f : nat → A) order :
  first_rejection (fulfilments f order) = None.
Proof. induction order; simpl; done. Qed.

Lemma fill_fulfilments_lookup {A} (f : nat → A) order slots j :
  fill (fulfilments f order) slots !! j =
  (λ x, if decide (j ∈ order) then Some (f j) else x) <$> slots !! j.
Proof.
  revert slots. induction order as [|i order IH]; intros slots; simpl.
  - destruct (slots !! j); simpl; [|done].
    destruct (decide (j ∈ [])) as [H|_]; [by apply elem_of_nil in H|done].
  - rewrite IH, list_lookup_insert.
    destruct (decide (i = j ∧ i < length slots)) as [[-> Hlt]|Hn]; simpl.
    + destruct (lookup_lt_is_Some_2 slots j Hlt) as [x ->]. simpl.
      destruct (decide (j ∈ j :: order)) as [_|Hnin]; [|by destruct Hnin; left].
      by destruct (decide (j ∈ order)).
    + destruct (slots !! j) as [x|] eqn:E; simpl; [|done].
      assert (i ≠ j).
      { intros ->. apply Hn. split; [done|]. by eapply lookup_lt_Some. }
      destruct (decide (j ∈ order)) as [Hin|Hnin].
      * destruct (decide (j ∈ i :: order)) as [_|Hnin]; [done|]. destruct Hnin. by right.
      * destruct (decide (j ∈ i :: order)) as [Hin|_]; [|done].
        apply elem_of_cons in Hin as [->|Hin]; done.
Qed.

Lemma fill_fulfilments_all {A} (vs : list A) (d : A) order :
  order ≡ₚ seq 0 (length vs) →
  fill (fulfilments (λ i, default d (vs !! i)) order) (all_of (length vs)) = Some <$> vs.
Proof.
  intros Hp. apply list_eq. intros j.
  rewrite fill_fulfilments_lookup, list_lookup_fmap. unfold all_of.
  destruct (vs !! j) as [v|] eqn:E; simpl.
  - assert (Hlt : j < length vs) by (by eapply lookup_lt_Some).
    rewrite (lookup_replicate_2 _ _ _ Hlt). simpl.
    destruct (decide (j ∈ order)) as [_|Hnin]; [done|].
    destruct Hnin. rewrite Hp. apply elem_of_seq. lia.
  - apply lookup_ge_None in E.
    by rewrite (proj1 (lookup_replicate_None _ _ _) E).
Qed.

Lemma fits_fulfilments {A} (f : nat → A) order n :
  NoDup order → (∀ i, i ∈ order → i < n) → fits (fulfilments f order) (all_of n).
Proof.
  intros Hnd Hlt. split; rewrite fulfilments_indices; [done|].
  intros i Hi. by apply lookup_replicate_2, Hlt.
Qed.

(** ** The fetches of one reload, settling one after the other *)

Lemma suspend_same tid t w : tasks w !! tid = Some t → suspend tid t w = w.
Proof.
  intros H. destruct w as [s c ss ts n l]. unfold suspend, with_tasks. simpl in *.
  f_equal. by apply insert_id.
Qed.

Lemma suspend_suspend tid t t' w : suspend tid t (suspend tid t' w) = suspend tid t w.
Proof. unfold suspend, with_tasks. simpl. f_equal. apply insert_insert_eq. Qed.

Lemma finish_suspend tid t w : finish tid (suspend tid t w) = finish tid w.
Proof. unfold finish, suspend, with_tasks. simpl. f_equal. apply delete_insert_eq. Qed.

Lemma fetches_settled tid script w :
  tasks w !! tid = None → run w (fetches tid script) = w.
Proof.
  intros H. induction script as [|[i o] script IH]; simpl; [done|].
  unfold list_settled. by rewrite H.
Qed.

Lemma flush_settled tid w : tasks w !! tid = None → flush tid w = w.
Proof. intros H. unfold flush. by rewrite H. Qed.

Lemma run_fetches tid script w slots :
  tasks w !! tid = Some (LoadAll (PerNamespace slots)) →
  run w (fetches tid script) =
  match settle_all script slots with
  | Waiting slots' => suspend tid (LoadAll (PerNamespace slots')) w
  | Done o => loadAll_resume (flat o) (finish tid w)
  end.
Proof.
  revert w slots. induction script as [|[i o] script IH]; intros w slots H; simpl.
  - by rewrite suspend_same.
  - unfold list_settled. rewrite H.
    destruct (deliver i o slots) as [slots'|[fetched|e]] eqn:E.
    + rewrite (IH _ slots').
      * destruct (settle_all script slots') as [slots''|r].
        -- by rewrite suspend_suspend.
        -- by rewrite finish_suspend.
      * unfold suspend, with_tasks. simpl. apply lookup_insert_eq.
    + apply fetches_settled. rewrite loadAll_resume_tasks. simpl. apply lookup_delete_eq.
    + apply fetches_settled. rewrite loadAll_resume_tasks. simpl. apply lookup_delete_eq.
Qed.

Lemma rejection_first {A} (evs : list (nat * Outcome A)) i e :
  (i, Rejected e) ∈ evs → ∃ e', first_rejection evs = Some e'.
Proof.
  induction evs as [|[j [v|e']] evs IH]; intros H.
  - by apply elem_of_nil in H.
  - apply elem_of_cons in H as [H|H]; [done|]. simpl. by apply IH.
  - simpl. by eexists.
Qed.

Lemma run_app w evs evs' : run w (evs ++ evs') = run (run w evs) evs'.
Proof. apply foldl_app. Qed.


Lemma rejected_cycle w namespaces script i e :
  isLoadingAll (context w) namespaces = false →
  NoDup script.*1 →
  (∀ j, j ∈ script.*1 → j < length namespaces) →
  (i, Rejected e) ∈ script →
  let w' := run (loadAll namespaces w) (fetches (spawned w) script) in
  tasks w' !! spawned w = None
  ∧ items (store w') = items (store w)
  ∧ failedLoading (store w') = true.
Proof.
  intros Hslow Hnd Hrange Hin w'. subst w'.
  destruct (rejection_first _ _ _ Hin) as [e' He'].
  assert (Hfit : fits script (all_of (A := list HelmRelease.t) (length namespaces))).
  { split; [done|]. intros j Hj. by apply lookup_replicate_2, Hrange. }
  rewrite (run_fetches _ _ _ (all_of (length namespaces))).
  - rewrite (settle_all_rejected _ _ _ Hfit He'). unfold flat.
    rewrite loadAll_resume_tasks, loadAll_resume_items_rejected, loadAll_resume_failedLoading.
    rewrite loadAll_unfold. simpl. by rewrite lookup_delete_eq.
  - rewrite loadAll_unfold. simpl. unfold promise. rewrite Hslow. apply lookup_insert_eq.
Qed.




(** ** The fast path *)

(** On a cluster that exposes a single namespace the covering scope is
    fetched by namespace. *)
Lemma one_call_when_covering_fails :
  ¬ one_call_when_covering (boot single_namespace_cluster) ["default"].
Proof.
  intros H. unfold one_call_when_covering in H.
  assert (Hlog : log (loadAll ["default"] (boot single_namespace_cluster))
                 = [Sent 0 (listReleases (Some "default"))]) by reflexivity.
  rewrite Hlog in H. simpl in H.
  assert (Hne : [Sent 0 (listReleases (Some "default"))] ≠ [Sent 0 (listReleases None)])
    by discriminate.
  apply Hne, H; [|done].
  intros all ns Hall Hns. simpl in Hall. by injection Hall as <-.
Qed.

Lemma isLoadingAll_true c namespaces all :
  allNamespaces c = Some all → 1 < length all →
  accessibleNamespaces c = [] → (∀ ns, ns ∈ all → ns ∈ namespaces) →
  isLoadingAll c namespaces = true.
Proof.
  intros Hall Hlen Hacc Hcov. unfold isLoadingAll. rewrite Hall, Hacc. simpl.
  rewrite (proj2 (Nat.ltb_lt _ _) Hlen). simpl.
  apply forallb_forall. intros ns Hns.
  apply bool_decide_eq_true, Hcov. by apply list_elem_of_In.
Qed.

(** C4, amended.  When the cluster exposes more than one namespace, the
    scope covers them all and the cluster has no access restriction, a reload
    sends exactly one request, [listReleases()], and awaits it alone. *)
Theorem fast_path_one_call w namespaces all :
  allNamespaces (context w) = Some all →
  1 < length all →
  accessibleNamespaces (context w) = [] →
  (∀ ns, ns ∈ all → ns ∈ namespaces) →
  log (loadAll namespaces w) = log w ++ [Sent (spawned w) (listReleases None)]
  ∧ tasks (loadAll namespaces w) !! spawned w = Some (LoadAll ListAll).
Proof.
  intros Hall Hlen Hacc Hcov.
  pose proof (isLoadingAll_true _ _ _ Hall Hlen Hacc Hcov) as Hfast.
  rewrite loadAll_unfold. unfold requests, promise. rewrite Hfast. simpl.
  split; [done|]. apply lookup_insert_eq.
Qed.

Lemma fast_path_one_call_witness :
  let c := {| contextNamespaces := []; allNamespaces := Some ["a"; "b"];
              accessibleNamespaces := [] |} in
  log (loadAll ["b"; "a"; "x"] (boot c)) = [Sent 0 (listReleases None)]
  ∧ tasks (loadAll ["b"; "a"; "x"] (boot c)) !! 0 = Some (LoadAll ListAll).
Proof.
  intros c.
  apply (fast_path_one_call (boot c) ["b"; "a"; "x"] ["a"; "b"]).
  - reflexivity.
  - simpl. lia.
  - reflexivity.
  - intros ns Hns. apply elem_of_cons in Hns as [->|Hns].
    + right. left.
    + apply list_elem_of_singleton in Hns as ->. left.
Defined.

(** ** The status flags *)

Lemma cleared_on_entry_fails : ¬ cleared_on_entry after_failure ["a"].
Proof. unfold cleared_on_entry. vm_compute. discriminate. Qed.

(** C5, amended.  Entering [loadAll] leaves [failedLoading] as it is; the
    flag is cleared when the attempt succeeds, and set when it fails. *)
Theorem failedLoading_follows_attempt :
  (∀ w namespaces,
     failedLoading (store (loadAll namespaces w)) = failedLoading (store w))
  ∧ (∀ w fetched,
       failedLoading (store (loadAll_resume (Fulfilled fetched) w)) = false)
  ∧ (∀ w e,
       failedLoading (store (loadAll_resume (Rejected e) w)) = true).
Proof.
  split; [|split].
  - intros w namespaces. by rewrite loadAll_unfold.
  - intros w fetched. by rewrite loadAll_resume_failedLoading.
  - intros w e. by rewrite loadAll_resume_failedLoading.
Qed.

Lemma loaded_once_settled_fails :
  ¬ loaded_once_settled (boot one_namespace) ["a"] [(0, Rejected forbidden)].
Proof.
  unfold loaded_once_settled. intros H.
  assert (Hf : false = true); [|discriminate].
  apply H. reflexivity.
Qed.

(** C6, amended.  After a reload has settled successfully [isLoaded] is
    true.  A reload that fails does not write the flag when it settles: it is
    still as the reload set it on entry, false, unless something else wrote
    it meanwhile. *)
Theorem isLoaded_after_reload :
  (∀ w fetched,
     isLoaded (store (loadAll_resume (Fulfilled fetched) w)) = true)
  ∧ (∀ w e,
       isLoaded (store (loadAll_resume (Rejected e) w)) = isLoaded (store w))
  ∧ (∀ w namespaces e,
       isLoaded (store (loadAll_resume (Rejected e)
                          (finish (spawned w) (loadAll namespaces w)))) = false).
Proof.
  split; [|split].
  - done.
  - intros w e. apply loadAll_resume_isLoaded_rejected.
  - intros w namespaces e. rewrite loadAll_resume_isLoaded_rejected.
    by rewrite loadAll_unfold.
Qed.

(** ** The reaction to a change of the secrets *)

(** The secret is deleted and created anew, under another id and with the
    same labels: the count is the same, no secret is in both caches, and the
    store reloads. *)
Lemma reloads_as_specified_fails :
  ¬ reloads_as_specified one_secret [helm_secret "uid-2"].
Proof.
  unfold reloads_as_specified. intros [Hstarted _].
  destruct Hstarted as [_ [Hcount|(id & s & s' & Hnew & Hold & _)]].
  - split; [reflexivity|]. eexists. reflexivity.
  - apply Hcount. reflexivity.
  - assert (Hid : id = "uid-1").
    { destruct (decide (id = "uid-1")) as [|Hne]; [done|].
      change (releaseSecrets (store one_secret))
        with (<["uid-1" := helm_secret "uid-1"]> (∅ : gmap string Secret.t)) in Hold.
      rewrite lookup_insert_ne in Hold by done. by rewrite lookup_empty in Hold. }
    subst id. vm_compute in Hnew. discriminate.
Qed.

Lemma stale_decided (old : gmap string Secret.t) (new : list (string * Secret.t)) :
  negb (length new =? size old)
  || existsb (λ kv, negb (isEqual (Some (Secret.getLabels kv.2))
                            (Secret.getLabels <$> old !! kv.1))) new = true
  ↔ stale old new.
Proof.
  unfold stale. rewrite orb_true_iff, negb_true_iff, Nat.eqb_neq, existsb_exists.
  split; (intros [H|H]; [by left|right]).
  - destruct H as ([id s] & Hin & Hne). exists id, s.
    apply list_elem_of_In in Hin. split; [done|].
    apply negb_true_iff, bool_decide_eq_false in Hne. simpl in Hne. congruence.
  - destruct H as (id & s & Hin & Hne). exists (id, s).
    split; [by apply list_elem_of_In|].
    apply negb_true_iff, bool_decide_eq_false. simpl. congruence.
Qed.

(** C2, amended.  A change of the secrets starts a reload if and only if no
    reload is in flight ([isLoading] is false) and either the number of
    owned secrets differs from the size of the association cache, or one of
    the owned secrets is not in the association cache under its id, or is
    there with a structurally different label set. *)
Theorem secrets_change_reloads_iff w secrets :
  reload_started w (step w (SecretsChanged secrets))
  ↔ isLoading (store w) = false
    ∧ stale (releaseSecrets (store w))
        (getReleaseSecrets (with_secretsStore secrets w)).
Proof.
  rewrite <- stale_decided. unfold reload_started, step, watchAssociatedSecrets.
  simpl. destruct (isLoading (store w)) eqn:Hl.
  - simpl. split; [intros [H _]; lia|intros [H _]; done].
  - match goal with |- context [if ?b then _ else _] => destruct b eqn:Hb end.
    + unfold loadFromContextNamespaces. rewrite loadAll_unfold. simpl.
      split; [done|]. intros _. split; [done|].
      eexists. apply lookup_insert_eq.
    + simpl. split; [intros [H _]; lia|intros [_ H]; done].
Qed.

(** What [replace] makes of the owned secrets: every entry is a secret of the
    secrets store that is labelled as owned by Helm, under its id, and every
    such secret has its id in the map. *)
Lemma foldl_insert_elem (entries : list (string * Secret.t)) (m : gmap string Secret.t) id s :
  foldl (λ m kv, <[kv.1 := kv.2]> m) m entries !! id = Some s →
  (id, s) ∈ entries ∨ m !! id = Some s.
Proof.
  revert m. induction entries as [|[k v] entries IH]; intros m H; simpl in *.
  - by right.
  - destruct (IH _ H) as [Hin|Hm].
    + left. by right.
    + destruct (decide (k = id)) as [->|Hne].
      * rewrite lookup_insert_eq in Hm. injection Hm as ->. left. by left.
      * rewrite lookup_insert_ne in Hm by done. by right.
Qed.

Lemma foldl_insert_is_Some (entries : list (string * Secret.t)) (m : gmap string Secret.t) id :
  id ∈ entries.*1 ∨ is_Some (m !! id) →
  is_Some (foldl (λ m kv, <[kv.1 := kv.2]> m) m entries !! id).
Proof.
  revert m. induction entries as [|[k v] entries IH]; intros m H; simpl in *.
  - destruct H as [H|H]; [by apply elem_of_nil in H|done].
  - apply IH. destruct H as [H|H].
    + apply elem_of_cons in H as [->|H]; [|by left].
      right. rewrite lookup_insert_eq. by eexists.
    + right. destruct (decide (k = id)) as [->|Hne].
      * rewrite lookup_insert_eq. by eexists.
      * by rewrite lookup_insert_ne.
Qed.

Lemma owned_secret w s :
  s ∈ getByLabel [("owner", "helm")] (secretsStore w)
  ↔ s ∈ secretsStore w ∧ Secret.getLabels s !! "owner" = Some "helm".
Proof.
  unfold getByLabel. rewrite list_elem_of_filter. simpl.
  rewrite andb_true_r, bool_decide_eq_true. tauto.
Qed.

Lemma association_cache_sound w id s :
  replace (getReleaseSecrets w) !! id = Some s →
  Secret.getId s = id ∧ s ∈ secretsStore w
  ∧ Secret.getLabels s !! "owner" = Some "helm".
Proof.
  intros H. apply foldl_insert_elem in H as [H|H]; [|by rewrite lookup_empty in H].
  unfold getReleaseSecrets in H. apply list_elem_of_fmap in H as (s' & Heq & Hs').
  injection Heq as -> ->. split; [done|]. by apply owned_secret.
Qed.

Lemma association_cache_complete w s :
  s ∈ secretsStore w → Secret.getLabels s !! "owner" = Some "helm" →
  is_Some (replace (getReleaseSecrets w) !! Secret.getId s).
Proof.
  intros Hs Hl. apply foldl_insert_is_Some. left.
  unfold getReleaseSecrets. rewrite <- list_fmap_compose.
  apply list_elem_of_fmap. exists s. split; [done|]. by apply owned_secret.
Qed.

(** A change that arrives during a reload is dropped altogether. *)
Lemma refreshed_fails :
  ¬ refreshed (step (boot one_namespace) (NamespacesSelected ["a"])) [helm_secret "uid-1"].
Proof.
  unfold refreshed. intros H.
  apply (f_equal (λ m : gmap string Secret.t, m !! "uid-1")) in H.
  vm_compute in H. discriminate.
Qed.

(** C3, amended.  A change of the secrets that arrives while no reload is in
    flight replaces the association cache by the owned secrets, whether it
    starts a reload or not; one that arrives during a reload leaves the
    association cache as it is. *)
Theorem association_cache_refreshed w secrets :
  releaseSecrets (store (step w (SecretsChanged secrets)))
  = if isLoading (store w)
    then releaseSecrets (store w)
    else replace (getReleaseSecrets (with_secretsStore secrets w)).
Proof.
  unfold step, watchAssociatedSecrets. simpl.
  destruct (isLoading (store w)); [done|].
  match goal with |- context [if ?b then _ else _] => destruct b end; [|done].
  unfold loadFromContextNamespaces. by rewrite loadAll_unfold.
Qed.

(** ** create, update, rollback *)

Lemma write_settled_fulfilled tid m response w :
  tasks w !! tid = Some (Mutate m) →
  write_settled tid (Fulfilled response) w =
  emit (Returned tid (Fulfilled response))
    (if isLoaded (store w) then loadFromContextNamespaces (finish tid w)
     else finish tid w).
Proof. intros H. unfold write_settled. rewrite H. by destruct m. Qed.

Lemma write_settled_rejected tid m e w :
  tasks w !! tid = Some (Mutate m) →
  write_settled tid (Rejected e) w = emit (Returned tid (Rejected e)) (finish tid w).
Proof. intros H. unfold write_settled. rewrite H. by destruct m. Qed.

(** C7. Each of [create], [update] and [rollback] sends its write and
    awaits it.  Whenever the write then fulfils, the caller gets the
    response; if [isLoaded] holds at that time, exactly one reload is started
    for the context namespaces of that time, and it is still in flight when
    the caller has its response; otherwise nothing is started.  Whenever the
    write is rejected, the caller gets the error, nothing is started and the
    store (item cache and association cache included) is as it was. *)
Theorem mutators_reload_on_success w ev m r :
  mutation ev = Some (m, r) →
  let tid := spawned w in
  let w1 := step w ev in
  (log w1 = log w ++ [Sent tid r]
   ∧ tasks w1 = <[tid := Mutate m]> (tasks w)
   ∧ spawned w1 = S tid
   ∧ store w1 = store w)
  ∧ ∀ w2, tasks w2 !! tid = Some (Mutate m) →
      (∀ response,
         let w3 := step w2 (WriteSettled tid (Fulfilled response)) in
         if isLoaded (store w2) then
           let scope := contextNamespaces (context w2) in
           spawned w3 = S (spawned w2)
           ∧ tasks w3 = <[spawned w2 := LoadAll (promise (context w2) scope)]>
                          (delete tid (tasks w2))
           ∧ log w3 = log w2 ++ requests (spawned w2) (context w2) scope
                        ++ [Returned tid (Fulfilled response)]
           ∧ isLoading (store w3) = true
           ∧ items (store w3) = items (store w2)
           ∧ releaseSecrets (store w3) = releaseSecrets (store w2)
         else
           spawned w3 = spawned w2
           ∧ tasks w3 = delete tid (tasks w2)
           ∧ log w3 = log w2 ++ [Returned tid (Fulfilled response)]
           ∧ store w3 = store w2)
      ∧ (∀ e,
           let w3 := step w2 (WriteSettled tid (Rejected e)) in
           spawned w3 = spawned w2
           ∧ tasks w3 = delete tid (tasks w2)
           ∧ log w3 = log w2 ++ [Returned tid (Rejected e)]
           ∧ store w3 = store w2).
Proof.
  intros Hev tid w1. split.
  - destruct ev; simpl in Hev; try discriminate; by injection Hev as <- <-.
  - intros w2 Htask. split.
    + intros response w3. subst w3. simpl.
      rewrite (write_settled_fulfilled _ _ _ _ Htask).
      destruct (isLoaded (store w2)); [|done].
      unfold loadFromContextNamespaces. rewrite loadAll_unfold. simpl.
      by rewrite <- app_assoc.
    + intros e w3. subst w3. simpl.
      by rewrite (write_settled_rejected _ _ _ _ Htask).
Qed.

Lemma mutators_reload_on_success_witness :
  let w := run (boot one_namespace)
             [NamespacesSelected ["a"]; ListSettled 0 0 (Fulfilled [])] in
  let w2 := step w (CallCreate "chart: web") in
  let w3 := step w2 (WriteSettled 1 (Fulfilled "created")) in
  log w2 = log w ++ [Sent 1 (createRelease "chart: web")]
  ∧ spawned w3 = 3
  ∧ log w3 = log w2 ++ [Sent 2 (listReleases (Some "a"));
                        Returned 1 (Fulfilled "created")].
Proof.
  intros w w2 w3.
  destruct (mutators_reload_on_success w (CallCreate "chart: web") Create
              (createRelease "chart: web") eq_refl) as [(Hsent & _) Hthen].
  destruct (Hthen w2) as [Hok _]; [reflexivity|].
  specialize (Hok "created").
  change (isLoaded (store w2)) with true in Hok. cbv iota in Hok.
  destruct Hok as (Hspawned & _ & Hlog & _).
  split; [exact Hsent|]. split; [exact Hspawned|exact Hlog].
Defined.

(** ** remove, removeSelectedItems: what is sent and what is left suspended *)

Lemma map_remove_spec l w :
  let w' := (map_remove l w).2 in
  (map_remove l w).1 = seq (spawned w) (length l)
  ∧ store w' = store w ∧ context w' = context w
  ∧ spawned w' = spawned w + length l
  ∧ log w' = log w ++ deletes (spawned w) l
  ∧ (∀ k, k < spawned w → tasks w' !! k = tasks w !! k)
  ∧ (∀ i item, l !! i = Some item →
       tasks w' !! (spawned w + i) = Some (Remove item None)).
Proof.
  revert w. induction l as [|item l IH]; intros w; simpl.
  - rewrite app_nil_r, Nat.add_0_r. repeat split; try done.
  - unfold remove, removeItem. simpl.
    match goal with |- context [map_remove l ?w0] => specialize (IH w0); set (w1 := w0) in * end.
    destruct (map_remove l w1) as [tids w'] eqn:E. simpl in *.
    destruct IH as (Htids & Hs & Hc & Hsp & Hlog & Hlow & Hhigh).
    repeat split.
    + by rewrite Htids.
    + done.
    + done.
    + lia.
    + rewrite Hlog. unfold deletes. simpl. rewrite <- app_assoc. simpl.
      rewrite Nat.add_0_r. do 2 f_equal.
      apply imap_ext. intros i x _. simpl. do 2 f_equal. lia.
    + intros k Hk. rewrite Hlow by lia. apply lookup_insert_ne. lia.
    + intros [|i] x Hx; simpl in Hx.
      * injection Hx as ->. rewrite Nat.add_0_r, Hlow by lia. apply lookup_insert_eq.
      * replace (spawned w + S i) with (S (spawned w) + i) by lia. by apply Hhigh.
Qed.

Lemma subscribe_spec parent i t len w :
  let w' := subscribe parent i (seq t len) w in
  store w' = store w ∧ context w' = context w
  ∧ spawned w' = spawned w ∧ log w' = log w
  ∧ (∀ k, ¬ (t ≤ k < t + len) → tasks w' !! k = tasks w !! k)
  ∧ (∀ j item l, j < len → tasks w !! (t + j) = Some (Remove item l) →
       tasks w' !! (t + j) = Some (Remove item (Some (parent, i + j)))).
Proof.
  revert i t w. induction len as [|len IH]; intros i t w; simpl.
  - repeat split; try done. intros; lia.
  - match goal with |- context [subscribe _ _ _ ?w0] =>
      specialize (IH (S i) (S t) w0); set (w1 := w0) in * end.
    simpl in IH. destruct IH as (Hs & Hc & Hsp & Hlog & Hout & Hin).
    repeat split; try done.
    + intros k Hk. rewrite Hout by lia. subst w1. simpl.
      apply lookup_alter_ne. lia.
    + intros [|j] item l Hj Ht.
      * rewrite Nat.add_0_r in Ht. rewrite !Nat.add_0_r.
        rewrite Hout by lia. subst w1. simpl.
        by rewrite lookup_alter_eq, Ht.
      * replace (t + S j) with (S t + j) in * by lia.
        replace (i + S j) with (S i + j) by lia.
        apply (Hin j item l); [lia|]. subst w1. simpl.
        rewrite lookup_alter_ne by lia. done.
Qed.

Lemma removeSelectedItems_spec w :
  let sel := selectedItems (store w) in
  let t0 := spawned w in
  let parent := t0 + length sel in
  let w' := removeSelectedItems w in
  store w' = store w ∧ context w' = context w
  ∧ spawned w' = S parent
  ∧ log w' = log w ++ deletes t0 sel
  ∧ tasks w' !! parent = Some (RemoveSelected (all_of (length sel)))
  ∧ (∀ i item, sel !! i = Some item →
       tasks w' !! (t0 + i) = Some (Remove item (Some (parent, i)))).
Proof.
  intros sel t0 parent w'. subst w'. unfold removeSelectedItems. fold sel.
  pose proof (map_remove_spec sel w) as Hm.
  destruct (map_remove sel w) as [children w1]. simpl in Hm.
  destruct Hm as (-> & Hs & Hc & Hsp & Hlog & Hlow & Hhigh).
  simpl. rewrite length_seq. fold t0 in Hsp, Hlog, Hhigh |- *.
  match goal with |- context [subscribe ?p 0 (seq t0 ?n) ?w0] =>
    pose proof (subscribe_spec p 0 t0 n w0) as Hsub end.
  simpl in Hsub. rewrite Hsp in *. fold parent in Hsub |- *.
  destruct Hsub as (Hs' & Hc' & Hsp' & Hlog' & Hout & Hin).
  repeat split; simpl.
  - by rewrite Hs'.
  - by rewrite Hc'.
  - by rewrite Hsp'.
  - by rewrite Hlog'.
  - apply lookup_insert_eq.
  - intros i item Hi.
    assert (i < length sel) by (by eapply lookup_lt_Some).
    rewrite lookup_insert_ne by (subst parent; lia).
    apply (Hin i item None); [done|]. simpl. by apply Hhigh.
Qed.

(** ** Reloads in flight together with other calls *)

(** The first reload settles while the second is in flight, and [create] is
    called and has its write fulfilled: [isLoaded] is true during the second
    reload, and the mutator starts a third one. *)
Lemma unloaded_while_in_flight_fails :
  ¬ unloaded_while_in_flight scope_changed_again ["b"]
      [ListSettled 0 0 (Fulfilled []); CallCreate "chart: web"] 2 "created".
Proof.
  unfold unloaded_while_in_flight. intros H.
  destruct H as [H _]; [|discriminate H].
  eexists. reflexivity.
Qed.

Lemma notify_store listener o w : store (notify listener o w) = store w.
Proof.
  unfold notify. destruct listener as [[parent i]|]; [|done].
  destruct (tasks w !! parent) as [[| | |slots]|]; try done.
  by destruct (deliver i o slots).
Qed.

Lemma loadAll_isLoaded namespaces w : isLoaded (store (loadAll namespaces w)) = false.
Proof. by rewrite loadAll_unfold. Qed.

Lemma step_keeps_unloaded w ev :
  isLoaded (store w) = false → commits w ev = false →
  isLoaded (store (step w ev)) = false.
Proof.
  intros Hu Hc. destruct ev; simpl in *; try done.
  - apply loadAll_isLoaded.
  - unfold watchAssociatedSecrets. simpl.
    destruct (isLoading (store w)); [done|].
    match goal with |- context [if ?b then _ else _] => destruct b end; [|done].
    simpl. unfold loadFromContextNamespaces. by rewrite loadAll_unfold.
  - by destruct (removeSelectedItems_spec w) as (-> & _).
  - unfold list_settled.
    destruct (tasks w !! tid) as [[[|slots]| | |]|]; try done.
    + destruct (i =? 0); [|done]. simpl in Hc. destruct o; [done|].
      by rewrite loadAll_resume_isLoaded_rejected.
    + destruct (deliver i o slots) as [slots'|[fetched|e]]; try done.
      unfold flat. by rewrite loadAll_resume_isLoaded_rejected.
  - unfold write_settled.
    destruct (tasks w !! tid) as [[|[| |]| |]|]; try done;
      destruct o; simpl; by rewrite ?Hu.
  - unfold delete_settled.
    destruct (tasks w !! tid) as [[| |item listener|]|]; try done.
    unfold removeItem_resume. destruct o; rewrite notify_store; simpl; by rewrite ?Hu.
  - unfold flush.
    destruct (tasks w !! tid) as [[[|slots]| | |slots]|]; try done.
    + destruct (poll slots) as [|[|]]; try done.
      unfold flat. by rewrite loadAll_resume_isLoaded_rejected.
    + by destruct (poll slots).
Qed.

(** The item cache is written by the successful settlement of a reload, and
    by nothing else; a fetch that is rejected settles its reload on the spot,
    whatever else is in flight. *)
Lemma items_change_only_on_commit w ev :
  commits w ev = false → items (store (step w ev)) = items (store w).
Proof.
  intros Hc. destruct ev; simpl in *; try done.
  - by rewrite loadAll_unfold.
  - unfold watchAssociatedSecrets. simpl.
    destruct (isLoading (store w)); [done|].
    match goal with |- context [if ?b then _ else _] => destruct b end; [|done].
    simpl. unfold loadFromContextNamespaces. by rewrite loadAll_unfold.
  - by destruct (removeSelectedItems_spec w) as (-> & _).
  - unfold list_settled.
    destruct (tasks w !! tid) as [[[|slots]| | |]|]; try done.
    + destruct (i =? 0); [|done]. simpl in Hc. destruct o; [done|].
      by rewrite loadAll_resume_items_rejected.
    + destruct (deliver i o slots) as [slots'|[fetched|e]]; try done.
      unfold flat. by rewrite loadAll_resume_items_rejected.
  - unfold write_settled.
    destruct (tasks w !! tid) as [[|[| |]| |]|]; try done;
      destruct o; simpl; try done;
      destruct (isLoaded (store w)); try done;
      unfold loadFromContextNamespaces; by rewrite loadAll_unfold.
  - unfold delete_settled.
    destruct (tasks w !! tid) as [[| |item listener|]|]; try done.
    unfold removeItem_resume. destruct o; rewrite notify_store; simpl; [|done].
    destruct (isLoaded (store w)); [|done].
    unfold loadFromContextNamespaces. by rewrite loadAll_unfold.
  - unfold flush.
    destruct (tasks w !! tid) as [[[|slots]| | |slots]|]; try done.
    + destruct (poll slots) as [|[|]]; try done.
      unfold flat. by rewrite loadAll_resume_items_rejected.
    + by destruct (poll slots).
Qed.

Lemma quiet_keeps_items evs w :
  quiet w evs → items (store (run w evs)) = items (store w).
Proof.
  revert w. induction evs as [|ev evs IH]; intros w Hq; simpl in *; [done|].
  destruct Hq as [Hc Hq]. rewrite IH by done. by apply items_change_only_on_commit.
Qed.

Lemma rejected_fetch_settles w tid slots i e :
  tasks w !! tid = Some (LoadAll (PerNamespace slots)) →
  slots !! i = Some None →
  let w' := step w (ListSettled tid i (Rejected e)) in
  tasks w' !! tid = None
  ∧ items (store w') = items (store w)
  ∧ failedLoading (store w') = true.
Proof.
  intros Ht Hi w'. subst w'. simpl. unfold list_settled, deliver. rewrite Ht, Hi.
  unfold flat. rewrite loadAll_resume_tasks, loadAll_resume_items_rejected,
    loadAll_resume_failedLoading. simpl. by rewrite lookup_delete_eq.
Qed.

Lemma quiet_keeps_unloaded evs w :
  isLoaded (store w) = false → quiet w evs → isLoaded (store (run w evs)) = false.
Proof.
  revert w. induction evs as [|ev evs IH]; intros w Hu Hq; simpl in *; [done|].
  destruct Hq as [Hc Hq]. apply IH; [|done]. by apply step_keeps_unloaded.
Qed.

(** The scope changes to [c] while the reload for [a] and [b] is in flight,
    and the reload for [c] settles first: when the fetch of [b] is rejected,
    the item cache holds the releases of [c], not what it held before the
    cycle. *)
Lemma nothing_committed_fails :
  ¬ nothing_committed (boot three_namespaces) ["a"; "b"]
      [NamespacesSelected ["c"];
       ListSettled 1 0 (Fulfilled [HelmRelease.mk "web" "c" 1])] 1 forbidden.
Proof.
  unfold nothing_committed. intros H.
  destruct (H [None; None]) as [Hitems _]; [reflexivity|reflexivity|].
  discriminate Hitems.
Qed.

(** C1, amended.  A reload that fetches per namespace and has one of its
    fetches rejected commits nothing itself.  On its own, its fetches
    settling in any order, each at most once, it settles with the item cache
    from before the cycle and [failedLoading] set.  With other calls and
    reloads in flight at the same time, its settlement leaves the item cache
    as it finds it and sets [failedLoading]; the item cache is then the one
    from before the cycle as long as no reload has settled successfully in
    between. *)
Theorem rejected_fetch_commits_nothing w namespaces :
  isLoadingAll (context w) namespaces = false →
  let tid := spawned w in
  (∀ script i e,
     NoDup script.*1 →
     (∀ j, j ∈ script.*1 → j < length namespaces) →
     (i, Rejected e) ∈ script →
     let w' := run (loadAll namespaces w) (fetches tid script) in
     tasks w' !! tid = None
     ∧ items (store w') = items (store w)
     ∧ failedLoading (store w') = true)
  ∧ (∀ evs slots i e,
       let w1 := run (loadAll namespaces w) evs in
       tasks w1 !! tid = Some (LoadAll (PerNamespace slots)) →
       slots !! i = Some None →
       let w' := step w1 (ListSettled tid i (Rejected e)) in
       tasks w' !! tid = None
       ∧ failedLoading (store w') = true
       ∧ items (store w') = items (store w1)
       ∧ (quiet (loadAll namespaces w) evs → items (store w') = items (store w))).
Proof.
  intros Hslow tid. split.
  - intros script i e Hnd Hrange Hin. by eapply rejected_cycle.
  - intros evs slots i e w1 Ht Hi.
    destruct (rejected_fetch_settles w1 tid slots i e Ht Hi) as (Hgone & Hitems & Hfailed).
    split; [done|]. split; [done|]. split; [done|]. intros Hq.
    rewrite Hitems. subst w1. rewrite quiet_keeps_items by done.
    by rewrite loadAll_unfold.
Qed.

Lemma rejected_fetch_commits_nothing_witness :
  let e := {| error := Some "forbidden" |} in
  let evs := [CallCreate "chart: api";
              ListSettled 1 0 (Fulfilled [HelmRelease.mk "api" "a" 1])] in
  let w1 := run (loadAll ["a"; "b"] one_release) evs in
  let w' := step w1 (ListSettled 1 1 (Rejected e)) in
  tasks w' !! 1 = None
  ∧ failedLoading (store w') = true
  ∧ items (store w') = [HelmRelease.mk "web" "a" 1].
Proof.
  intros e evs w1 w'.
  destruct (rejected_fetch_commits_nothing one_release ["a"; "b"]) as [_ Hany].
  { reflexivity. }
  destruct (Hany evs [Some [HelmRelease.mk "api" "a" 1]; None] 1 e)
    as (Hgone & Hfailed & _ & Hitems).
  - reflexivity.
  - reflexivity.
  - split; [exact Hgone|]. split; [exact Hfailed|].
    apply Hitems. simpl. done.
Defined.

(** C10, amended.  A reload sets [isLoaded] to false on entry, and the flag
    stays false as long as no reload, this one or another one in flight,
    settles successfully; a mutator whose write fulfils in that time hands
    the response to its caller and starts no reload. *)
Theorem unloaded_until_a_reload_succeeds w namespaces evs :
  quiet (loadAll namespaces w) evs →
  let w' := run (loadAll namespaces w) evs in
  isLoaded (store w') = false
  ∧ ∀ t m response, tasks w' !! t = Some (Mutate m) →
      let w'' := step w' (WriteSettled t (Fulfilled response)) in
      spawned w'' = spawned w'
      ∧ tasks w'' = delete t (tasks w')
      ∧ log w'' = log w' ++ [Returned t (Fulfilled response)].
Proof.
  intros Hq w'.
  assert (Hu : isLoaded (store w') = false).
  { apply quiet_keeps_unloaded; [apply loadAll_isLoaded|done]. }
  split; [done|]. intros t m response Ht w''. subst w''. simpl.
  rewrite (write_settled_fulfilled _ _ _ _ Ht), Hu. done.
Qed.

Lemma unloaded_until_a_reload_succeeds_witness :
  let w' := run (loadAll ["a"] (boot one_namespace)) [CallCreate "chart: web"] in
  isLoaded (store w') = false
  ∧ spawned (step w' (WriteSettled 1 (Fulfilled "created"))) = spawned w'.
Proof.
  intros w'.
  destruct (unloaded_until_a_reload_succeeds (boot one_namespace) ["a"]
              [CallCreate "chart: web"]) as [Hu Hm].
  - simpl. done.
  - split; [exact Hu|].
    destruct (Hm 1 Create "created") as (Hs & _); [reflexivity|exact Hs].
Defined.

Example follow_up_during_reload :
  let w' := run (loadAll ["b"] scope_changed_again)
              [ListSettled 0 0 (Fulfilled []); CallCreate "chart: web"] in
  tasks w' !! 1 = Some (LoadAll (PerNamespace [None]))
  ∧ isLoaded (store w') = true
  ∧ reload_started w' (step w' (WriteSettled 2 (Fulfilled "created"))).
Proof.
  simpl. split; [reflexivity|]. split; [reflexivity|].
  split; [reflexivity|]. eexists. reflexivity.
Qed.

(** ** removeSelectedItems: the deletes settle one after the other *)

Lemma aggregate_app parent l l' :
  aggregate parent (l ++ l') = aggregate parent l ++ aggregate parent l'.
Proof. apply omap_app. Qed.

Lemma aggregate_own parent l : aggregate parent (RemovedSelected parent <$> l) = l.
Proof.
  induction l as [|o l IH]; [done|].
  rewrite fmap_cons. unfold aggregate in *. cbn.
  rewrite decide_True by done. cbn. f_equal. exact IH.
Qed.

Lemma aggregate_requests parent tid c namespaces :
  aggregate parent (requests tid c namespaces) = [].
Proof.
  unfold requests. destruct (isLoadingAll c namespaces); [done|].
  induction namespaces; [done|]. by rewrite fmap_cons.
Qed.

Lemma heard_all_None evs : heard_all evs None = (None, []).
Proof. induction evs as [|[i o] evs IH]; simpl; [done|]. by rewrite IH. Qed.

Lemma heard_all_settle evs slots :
  heard_all evs (Some (RemoveSelected slots)) =
  match settle_all evs slots with
  | Waiting slots' => (Some (RemoveSelected slots'), [])
  | Done r => (None, [r])
  end.
Proof.
  revert slots. induction evs as [|[i o] evs IH]; intros slots; simpl; [done|].
  destruct (deliver i o slots) as [slots'|r].
  - rewrite IH. by destruct (settle_all evs slots').
  - by rewrite heard_all_None.
Qed.

Lemma notify_spec parent i o w :
  let w' := notify (Some (parent, i)) o w in
  store w' = store w ∧ context w' = context w ∧ spawned w' = spawned w
  ∧ (∀ k, k ≠ parent → tasks w' !! k = tasks w !! k)
  ∧ tasks w' !! parent = (heard i o (tasks w !! parent)).1
  ∧ log w' = log w ++ (RemovedSelected parent <$> (heard i o (tasks w !! parent)).2).
Proof.
  unfold notify, heard.
  destruct (tasks w !! parent) as [[| | |slots]|] eqn:E; simpl;
    try (rewrite app_nil_r; by repeat split).
  destruct (deliver i o slots) as [slots'|r]; simpl.
  - rewrite app_nil_r. repeat split; try done.
    + intros k Hk. by apply lookup_insert_ne.
    + apply lookup_insert_eq.
  - repeat split; try done.
    + intros k Hk. by apply lookup_delete_ne.
    + apply lookup_delete_eq.
Qed.

(** One delete settles: what it does to the world. *)
Lemma delete_settled_spec c item parent i o w :
  tasks w !! c = Some (Remove item (Some (parent, i))) →
  c < spawned w → parent < spawned w → c ≠ parent →
  let w' := step w (DeleteSettled c o) in
  context w' = context w
  ∧ spawned w ≤ spawned w'
  ∧ (∀ k, k < spawned w → k ≠ c → k ≠ parent → tasks w' !! k = tasks w !! k)
  ∧ tasks w' !! parent = (heard i o (tasks w !! parent)).1
  ∧ aggregate parent (log w')
    = aggregate parent (log w) ++ (heard i o (tasks w !! parent)).2
  ∧ Removed c o ∈ log w'
  ∧ (∀ e, e ∈ log w → e ∈ log w')
  ∧ selectedItemsIds (store w')
    = if is_fulfilled o
      then selectedItemsIds (store w) ∖ {[HelmRelease.getId item]}
      else selectedItemsIds (store w).
Proof.
  intros Hc Hlt Hplt Hne w'. subst w'. simpl. unfold delete_settled. rewrite Hc.
  unfold removeItem_resume.
  destruct o as [[]|e].
  - match goal with |- context [notify _ _ ?w0] =>
      destruct (notify_spec parent i (Fulfilled ()) w0)
        as (Hs & Hcx & Hsp & Hout & Hin & Hlog); set (pre := w0) in * end.
    assert (Hpre : context pre = context w ∧ spawned w ≤ spawned pre
              ∧ (∀ k, k < spawned w → k ≠ c → tasks pre !! k = tasks w !! k)
              ∧ aggregate parent (log pre) = aggregate parent (log w)
              ∧ Removed c (Fulfilled ()) ∈ log pre
              ∧ (∀ e, e ∈ log w → e ∈ log pre)
              ∧ selectedItemsIds (store pre)
                = selectedItemsIds (store w) ∖ {[HelmRelease.getId item]}).
    { subst pre. simpl. destruct (isLoaded (store w)); simpl.
      - unfold loadFromContextNamespaces. rewrite loadAll_unfold. simpl.
        repeat split; try done.
        + lia.
        + intros k Hk Hkc. rewrite lookup_insert_ne by lia.
          by apply lookup_delete_ne.
        + rewrite !aggregate_app, aggregate_requests. simpl. by rewrite !app_nil_r.
        + rewrite !elem_of_app. right. by left.
        + intros e He. rewrite !elem_of_app. by do 2 left.
      - repeat split; try done.
        + intros k Hk Hkc. by apply lookup_delete_ne.
        + rewrite aggregate_app. simpl. by rewrite app_nil_r.
        + rewrite !elem_of_app. right. by left.
        + intros e He. rewrite !elem_of_app. by left. }
    destruct Hpre as (Hpc & Hpsp & Hpt & Hpa & Hpr & Hpl & Hpsel).
    assert (Hpp : tasks pre !! parent = tasks w !! parent) by (by apply Hpt).
    rewrite Hpp in *.
    repeat split.
    + by rewrite Hcx.
    + lia.
    + intros k Hk Hkc Hkp. rewrite Hout by done. by apply Hpt.
    + done.
    + by rewrite Hlog, aggregate_app, aggregate_own, Hpa.
    + rewrite Hlog. apply elem_of_app. by left.
    + intros e0 He0. rewrite Hlog. apply elem_of_app. left. by apply Hpl.
    + by rewrite Hs.
  - match goal with |- context [notify _ _ ?w0] =>
      destruct (notify_spec parent i (Rejected e) w0)
        as (Hs & Hcx & Hsp & Hout & Hin & Hlog); set (pre := w0) in * end.
    assert (Hpp : tasks pre !! parent = tasks w !! parent).
    { subst pre. simpl. by apply lookup_delete_ne. }
    rewrite Hpp in *.
    repeat split.
    + by rewrite Hcx.
    + by rewrite Hsp.
    + intros k Hk Hkc Hkp. rewrite Hout by done. subst pre. simpl.
      by apply lookup_delete_ne.
    + done.
    + rewrite Hlog, aggregate_app, aggregate_own. subst pre. simpl.
      rewrite aggregate_app. simpl. by rewrite app_nil_r.
    + rewrite Hlog. subst pre. simpl. rewrite !elem_of_app. left. right. by left.
    + intros e0 He0. rewrite Hlog. subst pre. simpl. rewrite !elem_of_app. by do 2 left.
    + by rewrite Hs.
Qed.

Section Bulk.

Variables (sel : list HelmRelease.t) (t0 parent : nat) (out : nat → Outcome unit).
Hypothesis parent_after : parent = t0 + length sel.

Lemma run_deletes rest w :
  NoDup rest → pending sel t0 parent rest w → parent < spawned w →
  let w' := run w (settlements t0 out rest) in
  tasks w' !! parent = (heard_all (outcomes out rest) (tasks w !! parent)).1
  ∧ aggregate parent (log w')
    = aggregate parent (log w) ++ (heard_all (outcomes out rest) (tasks w !! parent)).2
  ∧ (∀ i, i ∈ rest → Removed (t0 + i) (out i) ∈ log w')
  ∧ (∀ e, e ∈ log w → e ∈ log w')
  ∧ selectedItemsIds (store w') ⊆ selectedItemsIds (store w)
  ∧ (∀ i item, i ∈ rest → sel !! i = Some item → is_fulfilled (out i) = true →
       HelmRelease.getId item ∉ selectedItemsIds (store w')).
Proof.
  revert w. induction rest as [|i rest IH]; intros w Hnd Hpend Hlt.
  - simpl. rewrite app_nil_r. repeat split; try done.
    + intros i Hi. by apply elem_of_nil in Hi.
    + intros i item Hi. by apply elem_of_nil in Hi.
  - apply NoDup_cons in Hnd as [Hi Hnd].
    destruct (Hpend i) as (item & Hitem & Htask); [by left|].
    assert (Hin : i < length sel) by (by eapply lookup_lt_Some).
    destruct (delete_settled_spec (t0 + i) item parent i (out i) w)
      as (Hc & Hsp & Hother & Hparent & Hagg & Hrem & Hlog & Hsel); [done|lia|done|lia|].
    set (w1 := step w (DeleteSettled (t0 + i) (out i))) in *.
    assert (Hpend1 : pending sel t0 parent rest w1).
    { intros j Hj. destruct (Hpend j) as (item' & Hitem' & Htask'); [by right|].
      exists item'. split; [done|].
      assert (j < length sel) by (by eapply lookup_lt_Some).
      assert (j ≠ i) by (by intros ->).
      rewrite Hother by lia. done. }
    destruct (IH w1 Hnd Hpend1) as (Hp' & Ha' & Hr' & Hl' & Hs' & Hf'); [lia|].
    change (run w (settlements t0 out (i :: rest)))
      with (run w1 (settlements t0 out rest)).
    change (outcomes out (i :: rest)) with ((i, out i) :: outcomes out rest). simpl.
    destruct (heard i (out i) (tasks w !! parent)) as [t' r] eqn:Eh. simpl in *.
    rewrite Hparent in Hp', Ha'.
    destruct (heard_all (outcomes out rest) t') as [t'' r'] eqn:Eha. simpl in *.
    repeat split.
    + done.
    + by rewrite Ha', Hagg, app_assoc.
    + intros j Hj. apply elem_of_cons in Hj as [->|Hj]; [by apply Hl'|by apply Hr'].
    + intros e He. by apply Hl', Hlog.
    + etrans; [done|]. rewrite Hsel.
      destruct (is_fulfilled (out i)); [by apply subseteq_difference_l|done].
    + intros j item' Hj Hitem' Hful.
      apply elem_of_cons in Hj as [->|Hj]; [|by eapply Hf'].
      assert (item' = item) as -> by congruence.
      rewrite Hful in Hsel. intros Hx. apply Hs' in Hx. rewrite Hsel in Hx.
      apply elem_of_difference in Hx as [_ Hx]. apply Hx. by apply elem_of_singleton.
Qed.

End Bulk.

Lemma outcomes_indices out rest : (outcomes out rest).*1 = rest.
Proof.
  unfold outcomes. induction rest as [|i rest IH]; [done|].
  rewrite !fmap_cons. simpl. by f_equal.
Qed.

Lemma outcomes_fulfilled out rest :
  first_rejection (outcomes out rest) = None →
  outcomes out rest = fulfilments (λ _, ()) rest.
Proof.
  unfold outcomes, fulfilments. induction rest as [|i rest IH]; [done|].
  rewrite !fmap_cons. simpl. destruct (out i) as [[]|e]; [|done].
  intros H. by rewrite IH.
Qed.

Lemma fill_units order n :
  order ≡ₚ seq 0 n →
  fill (fulfilments (λ _, ()) order) (all_of n) = Some <$> replicate n ().
Proof.
  intros Hp. apply list_eq. intros j.
  rewrite fill_fulfilments_lookup, list_lookup_fmap. unfold all_of.
  destruct (decide (j < n)) as [Hlt|Hge].
  - rewrite !lookup_replicate_2 by done. simpl.
    destruct (decide (j ∈ order)) as [_|Hnin]; [done|].
    destruct Hnin. rewrite Hp. apply elem_of_seq. lia.
  - rewrite !(proj1 (lookup_replicate_None _ _ _)) by lia. done.
Qed.

(** C9. [removeSelectedItems] sends one delete per selected item before any
    of them settles.  Whatever the outcomes and the order in which the
    deletes settle, every delete is followed through: its own outcome is
    reported, and an item whose delete succeeded leaves the selection, also
    after another delete has failed.  The caller gets one aggregate outcome:
    success if all the deletes succeed, and otherwise the first failure that
    occurred. *)
Theorem removeSelectedItems_aggregates w (out : nat → Outcome unit) order :
  let sel := selectedItems (store w) in
  let t0 := spawned w in
  let parent := t0 + length sel in
  order ≡ₚ seq 0 (length sel) →
  let w1 := removeSelectedItems w in
  let w2 := run w1 (settlements t0 out order ++ [Flush parent]) in
  log w1 = log w ++ deletes t0 sel
  ∧ (∀ i item, sel !! i = Some item →
       Removed (t0 + i) (out i) ∈ log w2
       ∧ (is_fulfilled (out i) = true →
          HelmRelease.getId item ∉ selectedItemsIds (store w2)))
  ∧ aggregate parent (log w2)
    = aggregate parent (log w)
      ++ [match first_rejection (outcomes out order) with
          | Some e => Rejected e
          | None => Fulfilled (replicate (length sel) ())
          end].
Proof.
  intros sel t0 parent Hp w1 w2.
  destruct (removeSelectedItems_spec w) as (Hs & Hc & Hsp & Hlog & Hparent & Hchildren).
  fold sel t0 parent w1 in Hs, Hc, Hsp, Hlog, Hparent, Hchildren.
  assert (Hnd : NoDup order) by (rewrite Hp; apply NoDup_seq).
  assert (Hrange : ∀ i, i ∈ order → i < length sel).
  { intros i Hi. rewrite Hp in Hi. apply elem_of_seq in Hi. lia. }
  assert (Hall : ∀ i, i < length sel → i ∈ order).
  { intros i Hi. rewrite Hp. apply elem_of_seq. lia. }
  assert (Hpend : pending sel t0 parent order w1).
  { intros i Hi. destruct (lookup_lt_is_Some_2 sel i (Hrange i Hi)) as [item Hitem].
    exists item. split; [done|]. by apply Hchildren. }
  destruct (run_deletes sel t0 parent out eq_refl order w1 Hnd Hpend)
    as (Ht & Ha & Hr & Hl & Hsub & Hf); [lia|].
  set (w' := run w1 (settlements t0 out order)) in *.
  assert (Hagg1 : aggregate parent (log w1) = aggregate parent (log w)).
  { rewrite Hlog, aggregate_app. unfold deletes.
    assert (Hnone : ∀ k l, aggregate parent
              (imap (λ i item, Sent (k + i)
                 (deleteRelease (HelmRelease.getName item) (HelmRelease.getNs item))) l) = []).
    { intros k l. revert k. induction l as [|x l IH]; intros k; [done|].
      simpl. unfold aggregate in *. simpl.
      rewrite <- (IH (S k)). f_equal. apply imap_ext. intros i y _. simpl.
      do 2 f_equal. lia. }
    by rewrite Hnone, app_nil_r. }
  rewrite Hparent, heard_all_settle in Ht, Ha. rewrite Hagg1 in Ha.
  assert (Hfit : fits (outcomes out order) (all_of (A := unit) (length sel))).
  { split; rewrite outcomes_indices; [done|].
    intros i Hi. by apply lookup_replicate_2, Hrange. }
  split; [done|].
  assert (Hw2 : w2 = flush parent w') by (subst w2; by rewrite run_app).
  destruct (first_rejection (outcomes out order)) as [e|] eqn:Erej.
  - rewrite (settle_all_rejected _ _ _ Hfit Erej) in Ht, Ha. simpl in Ht, Ha.
    rewrite (flush_settled _ _ Ht) in Hw2. rewrite Hw2.
    split; [|done]. intros i item Hitem.
    assert (i ∈ order) by (apply Hall; by eapply lookup_lt_Some).
    split; [by apply Hr|]. intros Hful. by eapply Hf.
  - destruct (decide (order = [])) as [Hnil|Hne].
    + subst order. simpl in Ht, Ha.
      assert (Hlen : length sel = 0).
      { apply Permutation_length in Hp. by rewrite length_seq in Hp. }
      rewrite Hw2. unfold flush. rewrite Ht, Hlen. simpl.
      split.
      * intros i item Hitem. apply lookup_lt_Some in Hitem. lia.
      * rewrite aggregate_app, Ha, app_nil_r. f_equal.
        apply (aggregate_own parent [Fulfilled []]).
    + rewrite (settle_all_fulfilled _ _ Hfit Erej) in Ht, Ha
        by (intros Hnil; apply Hne; by destruct order).
      rewrite (outcomes_fulfilled _ _ Erej), (fill_units _ _ Hp) in Ht, Ha.
      unfold poll in Ht, Ha. rewrite collect_Some in Ht, Ha. simpl in Ht, Ha.
      rewrite (flush_settled _ _ Ht) in Hw2. rewrite Hw2.
      split; [|done]. intros i item Hitem.
      assert (i ∈ order) by (apply Hall; by eapply lookup_lt_Some).
      split; [by apply Hr|]. intros Hful. by eapply Hf.
Qed.

Lemma removeSelectedItems_aggregates_witness :
  let web := HelmRelease.mk "web" "a" 1 in
  let db := HelmRelease.mk "db" "a" 2 in
  let api := HelmRelease.mk "api" "a" 5 in
  let w := with_store (set_selectedItemsIds {[ ("a", "web"); ("a", "db"); ("a", "api") ]})
             (run (boot one_namespace)
                [NamespacesSelected ["a"]; ListSettled 0 0 (Fulfilled [web; db; api])]) in
  let out := λ i, if i =? 1 then Rejected forbidden else Fulfilled () in
  let w2 := run (removeSelectedItems w) (settlements 1 out [2; 1; 0] ++ [Flush 4]) in
  log (removeSelectedItems w)
    = log w ++ [Sent 1 (deleteRelease "api" "a"); Sent 2 (deleteRelease "db" "a");
                Sent 3 (deleteRelease "web" "a")]
  ∧ (("a", "api") ∉ selectedItemsIds (store w2))
  ∧ (("a", "web") ∉ selectedItemsIds (store w2))
  ∧ aggregate 4 (log w2) = [Rejected forbidden].
Proof.
  intros web db api w out w2.
  destruct (removeSelectedItems_aggregates w out [2; 1; 0]) as (Hsent & Heach & Hagg).
  - change (selectedItems (store w)) with [api; db; web]. simpl.
    etrans; [apply perm_swap|]. etrans; [apply perm_skip, perm_swap|]. apply perm_swap.
  - split; [exact Hsent|].
    split; [exact (proj2 (Heach 0 api eq_refl) eq_refl)|].
    split; [exact (proj2 (Heach 2 web eq_refl) eq_refl)|exact Hagg].
Defined.

(** * Further properties of the release store *)

(* ---------- lemmas ---------- *)

Lemma isLoadingAll_empty c : isLoadingAll c [] = false.
Proof.
  unfold isLoadingAll. destruct (allNamespaces c) as [[|ns all]|]; [done| |done].
  simpl. by rewrite andb_false_r.
Qed.

(** X1. A reload for the empty scope never takes the fast path: it sends no
    request at all, and once it goes on it empties the item cache and leaves
    the store loaded, not failed and not loading. *)
Theorem empty_scope_clears w :
  let w1 := loadAll [] w in
  let w2 := step w1 (Flush (spawned w)) in
  log w1 = log w
  ∧ tasks w2 !! spawned w = None
  ∧ log w2 = log w
  ∧ items (store w2) = []
  ∧ isLoaded (store w2) = true
  ∧ failedLoading (store w2) = false
  ∧ isLoading (store w2) = false.
Proof.
  intros w1 w2. subst w1 w2. rewrite loadAll_unfold.
  unfold requests, promise. rewrite isLoadingAll_empty. simpl.
  unfold flush. simpl. rewrite lookup_insert_eq. simpl.
  rewrite app_nil_r, lookup_delete_eq. done.
Qed.

(** X2. When the one request of a fast-path reload is rejected, the reload
    settles there: the item cache and [isLoaded] stay as they are,
    [failedLoading] is set, [isLoading] is cleared, a warning is logged, and
    the user is notified exactly when the error carries a non-empty
    [error]. *)
Theorem fast_path_rejection w tid e :
  tasks w !! tid = Some (LoadAll ListAll) →
  let w' := step w (ListSettled tid 0 (Rejected e)) in
  tasks w' = delete tid (tasks w)
  ∧ items (store w') = items (store w)
  ∧ isLoaded (store w') = isLoaded (store w)
  ∧ failedLoading (store w') = true
  ∧ isLoading (store w') = false
  ∧ log w' = log w ++ Warned e ::
      match error e with
      | Some m => if bool_decide (m = "") then [] else [Notified m]
      | None => []
      end.
Proof.
  intros Ht w'. subst w'. simpl. unfold list_settled. rewrite Ht. simpl.
  unfold loadAll_resume, truthy.
  destruct (error e) as [m|]; [destruct (bool_decide (m = ""))|]; simpl;
    rewrite <- ?app_assoc; done.
Qed.

Lemma fast_path_rejection_witness :
  let w := loadAll ["a"; "b"] (boot two_namespaces) in
  let w' := step w (ListSettled 0 0 (Rejected forbidden)) in
  items (store w') = [] ∧ failedLoading (store w') = true
  ∧ log w' = log w ++ [Warned forbidden; Notified "forbidden"].
Proof.
  intros w w'.
  destruct (fast_path_rejection w 0 forbidden) as (_ & Hitems & _ & Hfailed & _ & Hlog).
  - reflexivity.
  - split; [exact Hitems|]. split; [exact Hfailed|exact Hlog].
Defined.


(** ** Task ids *)

Lemma bounded_insert tid t w w' :
  bounded w → tasks w' = <[tid := t]> (tasks w) → tid < spawned w' →
  spawned w ≤ spawned w' → bounded w'.
Proof.
  intros Hb Ht Hlt Hle k Hk. rewrite Ht in Hk.
  destruct (decide (tid = k)) as [<-|Hne]; [done|].
  rewrite lookup_insert_ne in Hk by done. apply Hb in Hk. lia.
Qed.

Lemma bounded_delete tid w w' :
  bounded w → tasks w' = delete tid (tasks w) → spawned w ≤ spawned w' → bounded w'.
Proof.
  intros Hb Ht Hle k Hk. rewrite Ht in Hk.
  destruct (decide (tid = k)) as [<-|Hne].
  - rewrite lookup_delete_eq in Hk. by destruct Hk.
  - rewrite lookup_delete_ne in Hk by done. apply Hb in Hk. lia.
Qed.

Lemma bounded_loadAll namespaces w : bounded w → bounded (loadAll namespaces w).
Proof.
  intros Hb. eapply (bounded_insert (spawned w)); [done| | |];
    rewrite loadAll_unfold; simpl; [done|lia|lia].
Qed.

Lemma keeps_reloads_loadAll namespaces w : bounded w → keeps_reloads w (loadAll namespaces w).
Proof.
  intros Hb k a Hk. exists a. rewrite loadAll_unfold. simpl.
  rewrite lookup_insert_ne; [done|].
  intros <-. assert (spawned w < spawned w) by (apply Hb; by eexists). lia.
Qed.

Lemma map_remove_bounded l w : bounded w → bounded (map_remove l w).2.
Proof.
  revert w. induction l as [|item l IH]; intros w Hb; simpl; [done|].
  unfold remove, removeItem. simpl.
  match goal with |- context [map_remove l ?w0] =>
    specialize (IH w0); destruct (map_remove l w0) as [tids w'] end.
  simpl in *. apply IH.
  eapply (bounded_insert (spawned w)); [done|done|simpl; lia|simpl; lia].
Qed.

Lemma subscribe_keys parent i children w k :
  is_Some (tasks (subscribe parent i children w) !! k) ↔ is_Some (tasks w !! k).
Proof.
  revert i w. induction children as [|child rest IH]; intros i w; simpl; [done|].
  rewrite IH. simpl. rewrite lookup_alter.
  destruct (decide (child = k)) as [->|]; [|done].
  by rewrite fmap_is_Some.
Qed.

Lemma subscribe_spawned parent i children w :
  spawned (subscribe parent i children w) = spawned w.
Proof.
  revert i w. induction children as [|child rest IH]; intros i w; simpl; [done|].
  by rewrite IH.
Qed.

Lemma subscribe_keeps_reloads parent i children w k a :
  tasks w !! k = Some (LoadAll a) →
  tasks (subscribe parent i children w) !! k = Some (LoadAll a).
Proof.
  revert i w. induction children as [|child rest IH]; intros i w Hk; simpl; [done|].
  apply IH. simpl. rewrite lookup_alter.
  destruct (decide (child = k)) as [->|]; [|done]. by rewrite Hk.
Qed.

Lemma removeSelectedItems_frame w :
  bounded w →
  let w' := removeSelectedItems w in
  bounded w' ∧ keeps_reloads w w'.
Proof.
  intros Hb w'. subst w'. unfold removeSelectedItems.
  pose proof (map_remove_spec (selectedItems (store w)) w) as Hm.
  pose proof (map_remove_bounded (selectedItems (store w)) w Hb) as Hb1.
  destruct (map_remove (selectedItems (store w)) w) as [children w1]. simpl in Hm, Hb1.
  destruct Hm as (_ & _ & _ & Hsp & _ & Hlow & _). simpl.
  split.
  - intros k Hk. simpl in *. rewrite subscribe_spawned. simpl.
    destruct (decide (spawned w1 = k)) as [<-|Hne]; [lia|].
    rewrite lookup_insert_ne in Hk by done.
    apply subscribe_keys in Hk. simpl in Hk. apply Hb1 in Hk. lia.
  - intros k a Hk. exists a. simpl.
    assert (k < spawned w) by (apply Hb; by eexists).
    rewrite lookup_insert_ne by lia.
    apply subscribe_keeps_reloads. simpl. by rewrite Hlow.
Qed.

Lemma notify_frame listener o w :
  bounded w →
  bounded (notify listener o w) ∧ keeps_reloads w (notify listener o w)
  ∧ spawned (notify listener o w) = spawned w.
Proof.
  intros Hb. unfold notify. destruct listener as [[parent i]|];
    [|split; [done|split; [|done]]; intros k a Hk; by exists a].
  destruct (tasks w !! parent) as [[| | |slots]|] eqn:E;
    try (split; [done|split; [|done]]; intros k a Hk; by exists a).
  destruct (deliver i o slots) as [slots'|r].
  - split; [|split; [|done]].
    + eapply (bounded_insert parent); [done|done| |done].
      simpl. apply Hb. by eexists.
    + intros k a Hk. exists a. simpl. rewrite lookup_insert_ne; [done|].
      intros <-. congruence.
  - split; [|split; [|done]].
    + eapply (bounded_delete parent); [done|done|done].
    + intros k a Hk. exists a. simpl. rewrite lookup_delete_ne; [done|].
      intros <-. congruence.
Qed.

Lemma keeps_reloads_refl w : keeps_reloads w w.
Proof. intros k a Hk. by exists a. Qed.

Lemma keeps_reloads_trans w1 w2 w3 :
  keeps_reloads w1 w2 → keeps_reloads w2 w3 → keeps_reloads w1 w3.
Proof. intros H12 H23 k a Hk. destruct (H12 k a Hk) as [a' Hk']. by eapply H23. Qed.

Lemma keeps_reloads_finish tid t w :
  tasks w !! tid = Some t → (∀ a, t ≠ LoadAll a) → keeps_reloads w (finish tid w).
Proof.
  intros Ht Hn k a Hk. exists a. simpl. rewrite lookup_delete_ne; [done|].
  intros <-. rewrite Ht in Hk. injection Hk as ->. by eapply Hn.
Qed.

Lemma bounded_finish tid w : bounded w → bounded (finish tid w).
Proof. intros Hb. by eapply (bounded_delete tid). Qed.

Lemma maybe_reload_frame (b : bool) w :
  bounded w →
  let w' := if b then loadFromContextNamespaces w else w in
  bounded w' ∧ keeps_reloads w w'.
Proof.
  intros Hb. destruct b; simpl.
  - split; [by apply bounded_loadAll|by apply keeps_reloads_loadAll].
  - split; [done|apply keeps_reloads_refl].
Qed.

Lemma loadAll_resume_isLoading o w : isLoading (store (loadAll_resume o w)) = false.
Proof.
  unfold loadAll_resume. destruct o as [fetched|e]; simpl; [done|].
  by destruct (truthy (error e)).
Qed.

Lemma bounded_loadAll_resume o w : bounded w → bounded (loadAll_resume o w).
Proof.
  intros Hb k. rewrite loadAll_resume_tasks, loadAll_resume_spawned. apply Hb.
Qed.

Lemma reloading_loadAll namespaces w : reloading (loadAll namespaces w).
Proof.
  exists (spawned w). eexists. rewrite loadAll_unfold. simpl. apply lookup_insert_eq.
Qed.

Lemma reloading_kept w w' : reloading w → keeps_reloads w w' → reloading w'.
Proof. intros (tid & a & Ht) Hk. destruct (Hk tid a Ht) as [a' Ha']. by exists tid, a'. Qed.

Lemma maybe_reload_loading (b : bool) w :
  bounded w →
  let w' := if b then loadFromContextNamespaces w else w in
  bounded w' ∧ keeps_reloads w w'
  ∧ (isLoading (store w') = true → reloading w' ∨ isLoading (store w) = true).
Proof.
  intros Hb. destruct (maybe_reload_frame b w Hb) as [Hb' Hk].
  split; [done|]. split; [done|]. destruct b; simpl.
  - intros _. left. apply reloading_loadAll.
  - intros H. by right.
Qed.

Ltac same_tasks := let Hk := fresh in intros ? ? Hk; eexists; exact Hk.

Lemma step_frame w ev :
  bounded w →
  bounded (step w ev)
  ∧ (isLoading (store (step w ev)) = true →
     reloading (step w ev) ∨ (isLoading (store w) = true ∧ keeps_reloads w (step w ev))).
Proof.
  intros Hb. destruct ev; simpl.
  - split.
    + by apply bounded_loadAll.
    + intros _. left. apply reloading_loadAll.
  - split; [done|]. intros H. right. split; [done|same_tasks].
  - unfold watchAssociatedSecrets. simpl.
    destruct (isLoading (store w)) eqn:Hl.
    + split; [done|]. intros _. right. split; [done|same_tasks].
    + match goal with |- context [if ?b then _ else _] => destruct b end; simpl.
      * split; [by apply (bounded_loadAll _ (with_secretsStore secrets w))|].
        intros _. left.
        apply (reloading_kept (loadFromContextNamespaces (with_secretsStore secrets w)));
          [apply reloading_loadAll|same_tasks].
      * split; [done|]. simpl. rewrite Hl. done.
  - split.
    + eapply (bounded_insert (spawned w)); [done|done|simpl; lia|simpl; lia].
    + intros H. right. split; [done|]. intros k a Hk. exists a. simpl.
      rewrite lookup_insert_ne; [done|]. intros <-.
      assert (spawned w < spawned w) by (apply Hb; by eexists). lia.
  - split.
    + eapply (bounded_insert (spawned w)); [done|done|simpl; lia|simpl; lia].
    + intros H. right. split; [done|]. intros k a Hk. exists a. simpl.
      rewrite lookup_insert_ne; [done|]. intros <-.
      assert (spawned w < spawned w) by (apply Hb; by eexists). lia.
  - split.
    + eapply (bounded_insert (spawned w)); [done|done|simpl; lia|simpl; lia].
    + intros H. right. split; [done|]. intros k a Hk. exists a. simpl.
      rewrite lookup_insert_ne; [done|]. intros <-.
      assert (spawned w < spawned w) by (apply Hb; by eexists). lia.
  - split.
    + eapply (bounded_insert (spawned w)); [done|done|simpl; lia|simpl; lia].
    + intros H. right. split; [done|]. intros k a Hk. exists a. simpl.
      rewrite lookup_insert_ne; [done|]. intros <-.
      assert (spawned w < spawned w) by (apply Hb; by eexists). lia.
  - destruct (removeSelectedItems_frame w Hb) as [Hb' Hk].
    destruct (removeSelectedItems_spec w) as (Hs & _).
    split; [done|]. rewrite Hs. intros H. by right.
  - unfold list_settled.
    destruct (tasks w !! tid) as [[[|slots]|m|item listener|slots]|] eqn:Ht;
      try (split; [done|]; intros H; right; split; [done|same_tasks]).
    + destruct (i =? 0).
      * split; [by apply bounded_loadAll_resume, bounded_finish|].
        by rewrite loadAll_resume_isLoading.
      * split; [done|]; intros H; right; split; [done|same_tasks].
    + destruct (deliver i o slots) as [slots'|r].
      * split.
        -- eapply (bounded_insert tid); [done|done| |done]. simpl. apply Hb. by eexists.
        -- simpl. intros H. right. split; [done|]. intros k a Hk. simpl.
           destruct (decide (tid = k)) as [<-|Hne].
           ++ rewrite lookup_insert_eq. by eexists.
           ++ rewrite lookup_insert_ne by done. by exists a.
      * split; [by apply bounded_loadAll_resume, bounded_finish|].
        by rewrite loadAll_resume_isLoading.
  - unfold write_settled.
    destruct (tasks w !! tid) as [[a|m|item listener|slots]|] eqn:Ht;
      try (split; [done|]; intros H; right; split; [done|same_tasks]).
    assert (Hgoal : ∀ w', (∃ response, w' = emit (Returned tid (Fulfilled response))
                 (if isLoaded (store (finish tid w))
                  then loadFromContextNamespaces (finish tid w) else finish tid w))
               ∨ (∃ e, w' = emit (Returned tid (Rejected e)) (finish tid w)) →
        bounded w' ∧ (isLoading (store w') = true →
           reloading w' ∨ isLoading (store w) = true ∧ keeps_reloads w w')).
    { intros w' [[response ->]|[e ->]].
      - destruct (maybe_reload_loading (isLoaded (store (finish tid w))) (finish tid w))
          as (Hb' & Hk & Hl); [by apply bounded_finish|].
        split; [done|]. simpl. intros H. destruct (Hl H) as [Hr|Hw].
        + left. by destruct Hr as (k & a & Hka); exists k, a.
        + right. split; [done|].
          eapply keeps_reloads_trans; [|exact Hk].
          by eapply keeps_reloads_finish.
      - split; [by apply bounded_finish|]. simpl. intros H. right. split; [done|].
        by eapply keeps_reloads_finish. }
    destruct m, o; apply Hgoal; eauto.
  - unfold delete_settled.
    destruct (tasks w !! tid) as [[a|m|item listener|slots]|] eqn:Ht;
      try (split; [done|]; intros H; right; split; [done|same_tasks]).
    assert (Hfin : keeps_reloads w (finish tid w)) by (by eapply keeps_reloads_finish).
    unfold removeItem_resume. destruct o as [[]|e].
    + destruct (maybe_reload_loading (isLoaded (store (finish tid w))) (finish tid w))
        as (Hb' & Hk & Hl); [by apply bounded_finish|].
      match goal with |- context [notify _ _ ?w0] =>
        destruct (notify_frame listener (Fulfilled ()) w0) as (Hbn & Hkn & _);
          [done|]; set (pre := w0) in * end.
      split; [done|]. rewrite notify_store. simpl. intros H.
      destruct (Hl H) as [Hr|Hw].
      * left. eapply reloading_kept; [|exact Hkn].
        by destruct Hr as (k & a & Hka); exists k, a.
      * right. split; [done|].
        eapply keeps_reloads_trans; [exact Hfin|].
        eapply keeps_reloads_trans; [exact Hk|]. exact Hkn.
    + match goal with |- context [notify _ _ ?w0] =>
        destruct (notify_frame listener (Rejected e) w0) as (Hbn & Hkn & _);
          [by apply bounded_finish|]; set (pre := w0) in * end.
      split; [done|]. rewrite notify_store. simpl. intros H. right. split; [done|].
      eapply keeps_reloads_trans; [exact Hfin|exact Hkn].
  - unfold flush.
    destruct (tasks w !! tid) as [[[|slots]|m|item listener|slots]|] eqn:Ht;
      try (split; [done|]; intros H; right; split; [done|same_tasks]).
    + destruct (poll slots) as [slots'|r].
      * split; [done|]; intros H; right; split; [done|same_tasks].
      * split; [by apply bounded_loadAll_resume, bounded_finish|].
        by rewrite loadAll_resume_isLoading.
    + destruct (poll slots) as [slots'|r].
      * split; [done|]; intros H; right; split; [done|same_tasks].
      * split; [by apply bounded_finish|]. simpl. intros H. right. split; [done|].
        by eapply keeps_reloads_finish.
Qed.

(** X3. In every world that the store can reach from its construction,
    whenever [isLoading] is set a reload is in flight. *)
Theorem isLoading_has_reload c evs :
  let w := run (boot c) evs in
  isLoading (store w) = true → reloading w.
Proof.
  assert (Hinv : ∀ evs w, bounded w → (isLoading (store w) = true → reloading w) →
            bounded (run w evs)
            ∧ (isLoading (store (run w evs)) = true → reloading (run w evs))).
  { clear evs. intros evs. induction evs as [|ev evs IH]; intros w Hb Hl; simpl; [done|].
    destruct (step_frame w ev Hb) as [Hb' Hl'].
    apply IH; [done|]. intros H. destruct (Hl' H) as [Hr|[Hw Hk]]; [done|].
    eapply reloading_kept; [|exact Hk]. by apply Hl. }
  intros w. apply Hinv.
  - intros k Hk. simpl in Hk. rewrite lookup_empty in Hk. by destruct Hk.
  - done.
Qed.

Lemma isLoading_has_reload_witness :
  reloading (run (boot one_namespace) [NamespacesSelected ["a"]; CallCreate "chart: web"]).
Proof.
  apply (isLoading_has_reload one_namespace
           [NamespacesSelected ["a"]; CallCreate "chart: web"]).
  reflexivity.
Defined.


(** ** The item cache is sorted *)

Lemma commit_sorts w ev :
  commits w ev = true → ∃ l, items (store (step w ev)) = sortItems l.
Proof.
  intros Hc. destruct ev; simpl in *; try discriminate.
  - unfold list_settled.
    destruct (tasks w !! tid) as [[[|slots]| | |]|]; try discriminate.
    + destruct (i =? 0); [|discriminate]. destruct o; [|discriminate]. by eexists.
    + destruct (deliver i o slots) as [slots'|[fetched|e]]; try discriminate. by eexists.
  - unfold flush.
    destruct (tasks w !! tid) as [[[|slots]| | |]|]; try discriminate.
    destruct (poll slots) as [slots'|[fetched|e]]; try discriminate. by eexists.
Qed.

(** X4. In every world that the store can reach from its construction, the
    item cache is sorted by name. *)
Theorem items_always_sorted c evs :
  Sorted by_name (items (store (run (boot c) evs))).
Proof.
  assert (Hinv : ∀ evs w, Sorted by_name (items (store w)) →
            Sorted by_name (items (store (run w evs)))).
  { clear evs. intros evs. induction evs as [|ev evs IH]; intros w Hs; simpl; [done|].
    apply IH. destruct (commits w ev) eqn:Hc.
    - destruct (commit_sorts w ev Hc) as [l ->]. apply sortItems_sorted.
    - by rewrite items_change_only_on_commit. }
  apply Hinv. constructor.
Qed.

(** ** Requests across all namespaces *)

Lemma restricted_slow c namespaces :
  accessibleNamespaces c ≠ [] → isLoadingAll c namespaces = false.
Proof.
  intros Hr. unfold isLoadingAll. destruct (allNamespaces c); [|done].
  destruct (accessibleNamespaces c); [done|]. simpl. by rewrite andb_false_r.
Qed.

Lemma requests_per_namespace tid c namespaces :
  isLoadingAll c namespaces = false → Forall (λ e, ¬ lists_all e) (requests tid c namespaces).
Proof.
  intros Hs. unfold requests. rewrite Hs. apply Forall_fmap, Forall_forall.
  intros ns _ [tid' H]. discriminate.
Qed.

Lemma loadAll_resume_log o w :
  ∃ new, log (loadAll_resume o w) = log w ++ new ∧ Forall (λ e, ¬ lists_all e) new.
Proof.
  unfold loadAll_resume. destruct o as [fetched|e]; simpl.
  - exists []. by rewrite app_nil_r.
  - destruct (truthy (error e)) as [m|]; simpl.
    + exists [Warned e; Notified m]. rewrite <- app_assoc. split; [done|].
      repeat constructor; intros [tid H]; discriminate.
    + exists [Warned e]. split; [done|]. repeat constructor; intros [tid H]; discriminate.
Qed.

Lemma loadAll_resume_context o w : context (loadAll_resume o w) = context w.
Proof.
  unfold loadAll_resume. destruct o as [fetched|e]; simpl; [done|].
  by destruct (truthy (error e)).
Qed.

Lemma notify_log listener o w :
  context (notify listener o w) = context w
  ∧ ∃ new, log (notify listener o w) = log w ++ new ∧ Forall (λ e, ¬ lists_all e) new.
Proof.
  unfold notify. destruct listener as [[parent i]|];
    [|split; [done|]; exists []; by rewrite app_nil_r].
  destruct (tasks w !! parent) as [[| | |slots]|];
    try (split; [done|]; exists []; by rewrite app_nil_r).
  destruct (deliver i o slots) as [slots'|r]; simpl.
  - split; [done|]; exists []; by rewrite app_nil_r.
  - split; [done|]. eexists. split; [done|].
    repeat constructor. intros [tid H]. discriminate.
Qed.

Lemma deletes_not_lists_all t0 l : Forall (λ e, ¬ lists_all e) (deletes t0 l).
Proof.
  unfold deletes. apply Forall_forall. intros e He.
  apply elem_of_lookup_imap in He as (i & item & -> & _). intros [tid H]. discriminate.
Qed.

Lemma step_never_lists_all w ev :
  accessibleNamespaces (context w) ≠ [] →
  accessibleNamespaces (context (step w ev)) = accessibleNamespaces (context w)
  ∧ ∃ new, log (step w ev) = log w ++ new ∧ Forall (λ e, ¬ lists_all e) new.
Proof.
  intros Hr.
  assert (Hload : ∀ namespaces w0, accessibleNamespaces (context w0) ≠ [] →
            context (loadAll namespaces w0) = context w0
            ∧ ∃ new, log (loadAll namespaces w0) = log w0 ++ new
                     ∧ Forall (λ e, ¬ lists_all e) new).
  { intros namespaces w0 Hr0. rewrite loadAll_unfold. simpl. split; [done|].
    eexists. split; [done|]. by apply requests_per_namespace, restricted_slow. }
  assert (Hlfc : ∀ w0, accessibleNamespaces (context w0) ≠ [] →
            context (loadFromContextNamespaces w0) = context w0
            ∧ ∃ new, log (loadFromContextNamespaces w0) = log w0 ++ new
                     ∧ Forall (λ e, ¬ lists_all e) new).
  { intros w0. apply Hload. }
  assert (Hone : ∀ e, ¬ lists_all e → Forall (λ e, ¬ lists_all e) [e]).
  { intros e He. by repeat constructor. }
  assert (Hnone : ∀ w0, ∃ new, log w0 = log w0 ++ new ∧ Forall (λ e, ¬ lists_all e) new).
  { intros w0. exists []. by rewrite app_nil_r. }
  destruct ev; simpl.
  - unfold watchSelectedNamespaces.
    destruct (Hload namespaces
                (with_context (set_contextNamespaces namespaces (context w)) w))
      as [-> Hl]; [done|]. split; [done|exact Hl].
  - split; [done|apply Hnone].
  - unfold watchAssociatedSecrets. simpl.
    destruct (isLoading (store w)); [split; [done|apply (Hnone (with_secretsStore secrets w))]|].
    match goal with |- context [if ?b then _ else _] => destruct b end; simpl.
    + destruct (Hlfc (with_secretsStore secrets w))
        as [-> Hl]; [done|]. split; [done|exact Hl].
    + split; [done|apply (Hnone (with_secretsStore secrets w))].
  - split; [done|]. eexists. split; [done|]. apply Hone. intros [tid H]. discriminate.
  - split; [done|]. eexists. split; [done|]. apply Hone. intros [tid H]. discriminate.
  - split; [done|]. eexists. split; [done|]. apply Hone. intros [tid H]. discriminate.
  - split; [done|]. eexists. split; [done|]. apply Hone. intros [tid H]. discriminate.
  - destruct (removeSelectedItems_spec w) as (_ & -> & _ & -> & _).
    split; [done|]. eexists. split; [done|]. apply deletes_not_lists_all.
  - unfold list_settled.
    destruct (tasks w !! tid) as [[[|slots]| | |]|]; try (split; [done|apply Hnone]).
    + destruct (i =? 0); [|split; [done|apply Hnone]].
      rewrite loadAll_resume_context. split; [done|]. apply (loadAll_resume_log o (finish tid w)).
    + destruct (deliver i o slots) as [slots'|r].
      * split; [done|apply (Hnone w)].
      * rewrite loadAll_resume_context. split; [done|].
        apply (loadAll_resume_log (flat r) (finish tid w)).
  - unfold write_settled.
    assert (Hgoal : ∀ w', (∃ response, w' = emit (Returned tid (Fulfilled response))
                 (if isLoaded (store (finish tid w))
                  then loadFromContextNamespaces (finish tid w) else finish tid w))
               ∨ (∃ e, w' = emit (Returned tid (Rejected e)) (finish tid w)) →
        accessibleNamespaces (context w') = accessibleNamespaces (context w)
        ∧ ∃ new, log w' = log w ++ new ∧ Forall (λ e, ¬ lists_all e) new).
    { intros w' [[response ->]|[e ->]]; simpl.
      - destruct (isLoaded (store w)); simpl.
        + destruct (Hlfc (finish tid w))
            as [-> (new & -> & Hnew)]; [done|]. split; [done|].
          exists (new ++ [Returned tid (Fulfilled response)]).
          rewrite app_assoc. split; [done|]. apply Forall_app. split; [done|].
          apply Hone. intros [t H]. discriminate.
        + split; [done|]. eexists. split; [done|]. apply Hone. intros [t H]. discriminate.
      - split; [done|]. eexists. split; [done|]. apply Hone. intros [t H]. discriminate. }
    destruct (tasks w !! tid) as [[a|m|item listener|slots]|];
      try (split; [done|apply Hnone]).
    destruct m, o; apply Hgoal; eauto.
  - unfold delete_settled.
    destruct (tasks w !! tid) as [[a|m|item listener|slots]|];
      try (split; [done|apply Hnone]).
    unfold removeItem_resume. destruct o as [[]|e].
    + match goal with |- context [notify _ _ ?w0] =>
        destruct (notify_log listener (Fulfilled ()) w0) as (-> & newn & -> & Hnewn) end.
      simpl. destruct (isLoaded (store w)); simpl.
      * destruct (Hlfc (finish tid w))
          as [-> (new & -> & Hnew)]; [done|]. split; [done|].
        exists (new ++ [Removed tid (Fulfilled ())] ++ newn).
        rewrite <- !app_assoc. split; [done|].
        apply Forall_app. split; [done|]. apply Forall_app. split; [|done].
        apply Hone. intros [t H]. discriminate.
      * split; [done|]. exists ([Removed tid (Fulfilled ())] ++ newn).
        rewrite <- !app_assoc. split; [done|]. apply Forall_app. split; [|done].
        apply Hone. intros [t H]. discriminate.
    + match goal with |- context [notify _ _ ?w0] =>
        destruct (notify_log listener (Rejected e) w0) as (-> & newn & -> & Hnewn) end.
      simpl. split; [done|]. exists ([Removed tid (Rejected e)] ++ newn).
      rewrite <- !app_assoc. split; [done|]. apply Forall_app. split; [|done].
      apply Hone. intros [t H]. discriminate.
  - unfold flush.
    destruct (tasks w !! tid) as [[[|slots]|m|item listener|slots]|];
      try (split; [done|apply Hnone]).
    + destruct (poll slots) as [slots'|r]; [split; [done|apply Hnone]|].
      rewrite loadAll_resume_context. split; [done|].
      apply (loadAll_resume_log (flat r) (finish tid w)).
    + destruct (poll slots) as [slots'|r]; [split; [done|apply Hnone]|].
      simpl. split; [done|]. eexists. split; [done|]. apply Hone. intros [t H]. discriminate.
Qed.

(** X5. On a cluster with an access restriction the store never sends
    [listReleases()] across all namespaces, whatever is selected and whatever
    happens. *)
Theorem restricted_never_lists_all c evs tid :
  accessibleNamespaces c ≠ [] →
  Sent tid (listReleases None) ∉ log (run (boot c) evs).
Proof.
  intros Hr.
  assert (Hinv : ∀ evs w, accessibleNamespaces (context w) ≠ [] →
            Forall (λ e, ¬ lists_all e) (log w) →
            Forall (λ e, ¬ lists_all e) (log (run w evs))).
  { clear evs. intros evs. induction evs as [|ev evs IH]; intros w Hw Hl; simpl; [done|].
    destruct (step_never_lists_all w ev Hw) as (Hctx & new & Hlog & Hnew).
    apply IH; [by rewrite Hctx|]. rewrite Hlog. by apply Forall_app. }
  intros Hin. specialize (Hinv evs (boot c) Hr (Forall_nil_2 _)).
  rewrite Forall_forall in Hinv. apply (Hinv _ Hin). by exists tid.
Qed.

Lemma restricted_never_lists_all_witness :
  Sent 0 (listReleases None)
    ∉ log (run (boot restricted_cluster) [NamespacesSelected ["a"; "b"]]).
Proof.
  apply (restricted_never_lists_all restricted_cluster [NamespacesSelected ["a"; "b"]] 0).
  discriminate.
Defined.


(** ** Overlapping reloads: the one that settles last wins *)

Lemma fulfilled_cycle w tid results order :
  tasks w !! tid = Some (LoadAll (PerNamespace (all_of (length results)))) →
  order ≡ₚ seq 0 (length results) →
  run w (fetches tid (fulfilments (λ i, default [] (results !! i)) order) ++ [Flush tid])
  = loadAll_resume (Fulfilled (concat results)) (finish tid w).
Proof.
  intros Ht Hp. rewrite run_app, (run_fetches _ _ _ _ Ht).
  assert (Hnd : NoDup order) by (rewrite Hp; apply NoDup_seq).
  assert (Hrange : ∀ i, i ∈ order → i < length results).
  { intros i Hi. rewrite Hp in Hi. apply elem_of_seq in Hi. lia. }
  destruct (decide (order = [])) as [->|Hne].
  - apply Permutation_length in Hp. rewrite length_seq in Hp.
    destruct results; [|done]. simpl.
    rewrite suspend_same by done. unfold flush. by rewrite Ht.
  - rewrite settle_all_fulfilled.
    + rewrite fill_fulfilments_all by done.
      unfold poll. rewrite collect_Some. unfold flat, run. simpl foldl.
      apply flush_settled. rewrite loadAll_resume_tasks. simpl. apply lookup_delete_eq.
    + by apply fits_fulfilments.
    + apply fulfilments_no_rejection.
    + by destruct order.
Qed.

Lemma scope_change_unfold namespaces w :
  isLoadingAll (context w) namespaces = false →
  step w (NamespacesSelected namespaces) =
  {| store := set_isLoaded false (set_isLoading true (store w));
     context := set_contextNamespaces namespaces (context w);
     secretsStore := secretsStore w;
     tasks := <[spawned w := LoadAll (PerNamespace (all_of (length namespaces)))]> (tasks w);
     spawned := S (spawned w);
     log := log w ++ ((λ ns, Sent (spawned w) (listReleases (Some ns))) <$> namespaces) |}.
Proof.
  intros Hs. simpl. unfold watchSelectedNamespaces. rewrite loadAll_unfold.
  unfold promise, requests. simpl.
  change (isLoadingAll (set_contextNamespaces namespaces (context w)) namespaces)
    with (isLoadingAll (context w) namespaces).
  by rewrite Hs.
Qed.

(** X6. Nothing discards a stale reload.  When the scope changes from [ns1]
    to [ns2] while the reload for [ns1] is in flight, and the reload for
    [ns2] settles first, the item cache ends with the releases fetched for
    [ns1] while the context namespaces are [ns2]. *)
Theorem stale_reload_overwrites w ns1 ns2 results1 results2 order1 order2 :
  isLoadingAll (context w) ns1 = false →
  isLoadingAll (context w) ns2 = false →
  length results1 = length ns1 → length results2 = length ns2 →
  order1 ≡ₚ seq 0 (length ns1) → order2 ≡ₚ seq 0 (length ns2) →
  let t1 := spawned w in
  let t2 := S t1 in
  let settle tid results order :=
    fetches tid (fulfilments (λ i, default [] (results !! i)) order) ++ [Flush tid] in
  let w' := run w ([NamespacesSelected ns1; NamespacesSelected ns2]
                   ++ settle t2 results2 order2 ++ settle t1 results1 order1) in
  contextNamespaces (context w') = ns2
  ∧ items (store w') = sortItems (concat results1)
  ∧ isLoaded (store w') = true
  ∧ isLoading (store w') = false
  ∧ tasks w' !! t1 = None ∧ tasks w' !! t2 = None.
Proof.
  intros Hs1 Hs2 Hl1 Hl2 Hp1 Hp2 t1 t2 settle w'. subst w' settle.
  rewrite run_app. cbv beta.
  change (run w [NamespacesSelected ns1; NamespacesSelected ns2])
    with (step (step w (NamespacesSelected ns1)) (NamespacesSelected ns2)).
  rewrite (scope_change_unfold ns1 w Hs1).
  rewrite scope_change_unfold by done. simpl.
  rewrite <- Hl1, <- Hl2 in *. rewrite run_app.
  rewrite (fulfilled_cycle _ t2 results2 order2); [|apply lookup_insert_eq|done].
  rewrite (fulfilled_cycle _ t1 results1 order1); [| |done].
  - simpl. repeat split.
    + rewrite lookup_delete_eq. done.
    + rewrite lookup_delete_ne by (subst t1 t2; lia). apply lookup_delete_eq.
  - rewrite loadAll_resume_tasks. simpl.
    rewrite lookup_delete_ne by (subst t1 t2; lia).
    rewrite lookup_insert_ne by (subst t1 t2; lia). apply lookup_insert_eq.
Qed.

Lemma stale_reload_overwrites_witness :
  let web := HelmRelease.mk "web" "a" 1 in
  let db := HelmRelease.mk "db" "b" 3 in
  let w' := run (boot one_namespace)
              [NamespacesSelected ["a"]; NamespacesSelected ["b"];
               ListSettled 1 0 (Fulfilled [db]); Flush 1;
               ListSettled 0 0 (Fulfilled [web]); Flush 0] in
  contextNamespaces (context w') = ["b"] ∧ items (store w') = [web].
Proof.
  intros web db w'.
  destruct (stale_reload_overwrites (boot one_namespace) ["a"] ["b"] [[web]] [[db]] [0] [0])
    as (Hscope & Hitems & _); try reflexivity.
  split; [exact Hscope|exact Hitems].
Defined.


(** ** What the association cache holds *)

Lemma getByLabel_owned l : getByLabel [("owner", "helm")] l = filter owned l.
Proof.
  unfold getByLabel. apply list_filter_iff. intros s. unfold owned. simpl.
  by rewrite andb_true_r, bool_decide_eq_true.
Qed.

Lemma replace_last (l : list Secret.t) (m : gmap string Secret.t) id :
  foldl (λ m kv, <[kv.1 := kv.2]> m) m ((λ s, (Secret.getId s, s)) <$> filter owned l) !! id
  = match last (filter (λ s, Secret.getId s = id ∧ owned s) l) with
    | Some s => Some s
    | None => m !! id
    end.
Proof.
  revert m. induction l as [|s l IH]; intros m; [done|].
  rewrite !filter_cons.
  destruct (decide (owned s)) as [Ho|Ho].
  - rewrite fmap_cons. simpl. rewrite IH.
    destruct (decide (Secret.getId s = id ∧ owned s)) as [[Hid _]|Hn].
    + rewrite last_cons. subst id. rewrite lookup_insert_eq.
      by destruct (last (filter _ l)).
    + rewrite lookup_insert_ne; [done|]. intros Hid. apply Hn. by split.
  - rewrite IH. destruct (decide (Secret.getId s = id ∧ owned s)) as [[_ Ho']|Hn]; done.
Qed.

(** X7. Once the secrets are loaded, the association cache has under an id
    the last secret of the secrets store with that id and the owner label of
    Helm, and nothing under an id without such a secret. *)
Theorem association_cache_lookup w id :
  releaseSecrets (store (step w SecretsLoaded)) !! id
  = last (filter (λ s, Secret.getId s = id ∧ owned s) (secretsStore w)).
Proof.
  simpl. unfold replace, getReleaseSecrets. rewrite getByLabel_owned, replace_last.
  rewrite lookup_empty. by destruct (last _).
Qed.

(** ** getReleaseSecret *)

Lemma getReleaseSecret_filter release w :
  getReleaseSecret release w = head (filter (secret_of release) (secretsStore w)).
Proof.
  unfold getReleaseSecret, getByLabel. f_equal.
  rewrite list_filter_filter. apply list_filter_iff. intros s. unfold secret_of. simpl.
  rewrite andb_true_r, andb_true_iff, !bool_decide_eq_true. tauto.
Qed.

(** X8. [getReleaseSecret] gives the first secret of the secrets store that
    has the owner label of Helm, the name label of the release and the
    namespace of the release, and nothing exactly when there is no such
    secret. *)
Theorem getReleaseSecret_first release w :
  match getReleaseSecret release w with
  | Some s =>
      secret_of release s
      ∧ ∃ before after, secretsStore w = before ++ s :: after
                        ∧ Forall (λ x, ¬ secret_of release x) before
  | None => Forall (λ x, ¬ secret_of release x) (secretsStore w)
  end.
Proof.
  rewrite getReleaseSecret_filter.
  destruct (head (filter (secret_of release) (secretsStore w))) as [s|] eqn:E.
  - split.
    + apply head_Some_elem_of, list_elem_of_filter in E. tauto.
    + by apply (head_filter_Some (secret_of release)).
  - apply head_None in E. apply Forall_forall. intros x Hx Hs.
    by eapply (filter_nil_not_elem_of _ _ x E).
Qed.

(** ** A change of the secrets that brings nothing new *)

Lemma foldl_insert_other (entries : list (string * Secret.t)) (m : gmap string Secret.t) id :
  id ∉ entries.*1 → foldl (λ m kv, <[kv.1 := kv.2]> m) m entries !! id = m !! id.
Proof.
  revert m. induction entries as [|[k v] entries IH]; intros m Hn; simpl; [done|].
  rewrite fmap_cons in Hn. apply not_elem_of_cons in Hn as [Hk Hn]. simpl in Hk.
  rewrite IH by done. by apply lookup_insert_ne.
Qed.

Lemma replace_lookup_unique (entries : list (string * Secret.t)) id s :
  NoDup entries.*1 → (id, s) ∈ entries → replace entries !! id = Some s.
Proof.
  unfold replace. generalize (∅ : gmap string Secret.t).
  induction entries as [|[k v] entries IH]; intros m Hnd Hin.
  - by apply elem_of_nil in Hin.
  - rewrite fmap_cons in Hnd. apply NoDup_cons in Hnd as [Hk Hnd]. simpl in *.
    apply elem_of_cons in Hin as [Heq|Hin].
    + injection Heq as -> ->. rewrite foldl_insert_other by done. apply lookup_insert_eq.
    + by apply IH.
Qed.

Lemma replace_size_unique (entries : list (string * Secret.t)) :
  NoDup entries.*1 → size (replace entries) = length entries.
Proof.
  unfold replace.
  assert (H : ∀ m : gmap string Secret.t, NoDup entries.*1 →
            (∀ k, k ∈ entries.*1 → m !! k = None) →
            size (foldl (λ m kv, <[kv.1 := kv.2]> m) m entries) = size m + length entries).
  { induction entries as [|[k v] entries IH]; intros m Hnd Hm; simpl; [lia|].
    rewrite fmap_cons in Hnd, Hm. apply NoDup_cons in Hnd as [Hk Hnd]. simpl in *.
    rewrite IH; [|done|].
    - rewrite map_size_insert_None; [lia|]. apply Hm. by left.
    - intros k' Hk'. rewrite lookup_insert_ne by (by intros ->).
      apply Hm. by right. }
  intros Hnd. rewrite H; [|done|intros; apply lookup_empty].
  by rewrite map_size_empty.
Qed.

Lemma unchanged_not_stale (entries : list (string * Secret.t)) :
  NoDup entries.*1 →
  negb (length entries =? size (replace entries))
  || existsb (λ kv, negb (isEqual (Some (Secret.getLabels kv.2))
                            (Secret.getLabels <$> replace entries !! kv.1))) entries = false.
Proof.
  intros Hnd. rewrite replace_size_unique, Nat.eqb_refl by done. simpl.
  apply not_true_iff_false. rewrite existsb_exists. intros ([id s] & Hin & Hne).
  apply list_elem_of_In in Hin. simpl in Hne.
  rewrite (replace_lookup_unique _ _ _ Hnd Hin) in Hne. simpl in Hne.
  unfold isEqual in Hne. by rewrite bool_decide_eq_true_2 in Hne.
Qed.

Lemma with_secretsStore_same secrets w :
  secretsStore w = secrets → with_secretsStore secrets w = w.
Proof. destruct w. simpl. by intros ->. Qed.

Lemma set_releaseSecrets_same m w :
  releaseSecrets (store w) = m → with_store (set_releaseSecrets m) w = w.
Proof. destruct w as [[] ? ? ? ? ?]. simpl. by intros ->. Qed.

Lemma secrets_change_outcome w secrets :
  let w1 := step w (SecretsChanged secrets) in
  secretsStore w1 = secrets
  ∧ (isLoading (store w1) = true
     ∨ releaseSecrets (store w1)
       = replace (getReleaseSecrets (with_secretsStore secrets w))).
Proof.
  simpl. unfold watchAssociatedSecrets. simpl.
  destruct (isLoading (store w)) eqn:Hl; [split; [done|by left]|].
  match goal with |- context [if ?b then _ else _] => destruct b end.
  - unfold loadFromContextNamespaces. rewrite loadAll_unfold. simpl.
    split; [done|by right].
  - split; [done|by right].
Qed.

(** X9. When the owned secrets have distinct ids, a change of the secrets
    that repeats the previous one changes nothing: no reload is started and
    the store stays as it is. *)
Theorem secrets_change_idempotent w secrets :
  NoDup (Secret.getId <$> getByLabel [("owner", "helm")] secrets) →
  step (step w (SecretsChanged secrets)) (SecretsChanged secrets)
  = step w (SecretsChanged secrets).
Proof.
  intros Hnd.
  assert (Hnd' : NoDup (getReleaseSecrets (with_secretsStore secrets w)).*1).
  { unfold getReleaseSecrets. simpl. by rewrite <- list_fmap_compose. }
  destruct (secrets_change_outcome w secrets) as [Hs Hc].
  set (w1 := step w (SecretsChanged secrets)) in *.
  change (step w1 (SecretsChanged secrets))
    with (watchAssociatedSecrets (with_secretsStore secrets w1)).
  rewrite (with_secretsStore_same _ _ Hs). unfold watchAssociatedSecrets.
  destruct (isLoading (store w1)) eqn:Hl; [done|].
  destruct Hc as [Hc|Hc]; [done|].
  assert (Hnew : getReleaseSecrets w1 = getReleaseSecrets (with_secretsStore secrets w)).
  { unfold getReleaseSecrets. by rewrite Hs. }
  rewrite Hnew, Hc, (unchanged_not_stale _ Hnd').
  by apply set_releaseSecrets_same.
Qed.

Lemma secrets_change_idempotent_witness :
  let secrets := [helm_secret "uid-1"; helm_secret "uid-2"] in
  step (step one_secret (SecretsChanged secrets)) (SecretsChanged secrets)
  = step one_secret (SecretsChanged secrets).
Proof.
  intros secrets. apply (secrets_change_idempotent one_secret secrets).
  change (NoDup ["uid-1"; "uid-2"]).
  apply NoDup_cons. split; [|apply NoDup_singleton].
  intros H. apply list_elem_of_singleton in H. discriminate.
Defined.


(** ** When the fast path is taken *)

Lemma isLoadingAll_iff c namespaces :
  isLoadingAll c namespaces = true
  ↔ ∃ all, allNamespaces c = Some all ∧ 1 < length all
           ∧ accessibleNamespaces c = [] ∧ ∀ ns, ns ∈ all → ns ∈ namespaces.
Proof.
  split.
  - unfold isLoadingAll. destruct (allNamespaces c) as [all|]; [|done].
    rewrite !andb_true_iff, Nat.ltb_lt, Nat.eqb_eq, forallb_forall.
    intros [[Hlen Hacc] Hcov]. exists all. split; [done|]. split; [done|]. split.
    + by destruct (accessibleNamespaces c).
    + intros ns Hns. apply list_elem_of_In, Hcov in Hns.
      by apply bool_decide_eq_true in Hns.
  - intros (all & Hall & Hlen & Hacc & Hcov). by eapply isLoadingAll_true.
Qed.

(** X19. A reload sends the one [listReleases()] across all namespaces, and
    nothing else, if and only if the cluster exposes more than one namespace,
    has no access restriction, and every namespace that it exposes is in the
    scope. *)
Theorem lists_all_iff w namespaces :
  log (loadAll namespaces w) = log w ++ [Sent (spawned w) (listReleases None)]
  ↔ ∃ all, allNamespaces (context w) = Some all ∧ 1 < length all
           ∧ accessibleNamespaces (context w) = []
           ∧ ∀ ns, ns ∈ all → ns ∈ namespaces.
Proof.
  rewrite <- isLoadingAll_iff, loadAll_unfold. simpl. unfold requests.
  destruct (isLoadingAll (context w) namespaces); split; try done.
  intros H. apply app_inv_head in H.
  destruct namespaces as [|ns [|ns' namespaces]]; discriminate.
Qed.

(** ** What a failed reload reports *)

Lemma loadAll_resume_rejected_log e w :
  log (loadAll_resume (Rejected e) w)
  = log w ++ Warned e ::
      match error e with
      | Some m => if bool_decide (m = "") then [] else [Notified m]
      | None => []
      end.
Proof.
  unfold loadAll_resume, truthy. simpl.
  destruct (error e) as [m|]; [destruct (bool_decide (m = ""))|]; simpl;
    rewrite <- ?app_assoc; done.
Qed.

(** X10. A reload that fetches per namespace and fails reports one error,
    the first rejection in the order in which its fetches settle: it logs one
    warning for it, and notifies the user exactly when it carries a non-empty
    [error]; what the other fetches do is not reported. *)
Theorem failed_reload_reports_first w namespaces script e :
  isLoadingAll (context w) namespaces = false →
  NoDup script.*1 →
  (∀ j, j ∈ script.*1 → j < length namespaces) →
  first_rejection script = Some e →
  log (run (loadAll namespaces w) (fetches (spawned w) script))
  = log w ++ ((λ ns, Sent (spawned w) (listReleases (Some ns))) <$> namespaces)
      ++ Warned e ::
         match error e with
         | Some m => if bool_decide (m = "") then [] else [Notified m]
         | None => []
         end.
Proof.
  intros Hslow Hnd Hrange He.
  assert (Hfit : fits script (all_of (A := list HelmRelease.t) (length namespaces))).
  { split; [done|]. intros j Hj. by apply lookup_replicate_2, Hrange. }
  rewrite (run_fetches _ _ _ (all_of (length namespaces))).
  - rewrite (settle_all_rejected _ _ _ Hfit He). unfold flat.
    rewrite loadAll_resume_rejected_log, loadAll_unfold. simpl.
    unfold requests. rewrite Hslow. by rewrite <- app_assoc.
  - rewrite loadAll_unfold. simpl. unfold promise. rewrite Hslow. apply lookup_insert_eq.
Qed.

Lemma failed_reload_reports_first_witness :
  let quota := {| error := Some "quota" |} in
  let script := [(1, Rejected forbidden); (0, Rejected quota)] in
  log (run (loadAll ["a"; "b"] (boot restricted_cluster)) (fetches 0 script))
  = [Sent 0 (listReleases (Some "a")); Sent 0 (listReleases (Some "b"));
     Warned forbidden; Notified "forbidden"].
Proof.
  intros quota script.
  apply (failed_reload_reports_first (boot restricted_cluster) ["a"; "b"] script forbidden).
  - reflexivity.
  - simpl. apply NoDup_cons. split; [|apply NoDup_singleton].
    intros H. apply list_elem_of_singleton in H. discriminate.
  - simpl. intros j Hj. apply elem_of_cons in Hj as [->|Hj]; [lia|].
    apply list_elem_of_singleton in Hj as ->. lia.
  - reflexivity.
Defined.

(** * Properties of the user store *)

Import UserStore.

(** ** isTableColumnHidden *)

(** X11. [isTableColumnHidden] answers true exactly when the table has an
    entry among the hidden columns and one of the given column ids is a
    non-empty string that is in that entry; without column ids, for an
    unknown table, and for ids that are undefined or empty it answers
    false. *)
Theorem isTableColumnHidden_iff (hidden : gmap string (gset string)) tableId columnIds :
  isTableColumnHidden hidden tableId columnIds = true
  ↔ ∃ config c, hidden !! tableId = Some config
                ∧ Some c ∈ columnIds ∧ c ≠ "" ∧ c ∈ config.
Proof.
  unfold isTableColumnHidden. destruct columnIds as [|c0 cs].
  - simpl. split; [done|]. intros (config & c & _ & Hc & _). by apply elem_of_nil in Hc.
  - simpl length. simpl Nat.eqb. cbv iota.
    destruct (hidden !! tableId) as [config|].
    + rewrite existsb_exists. split.
      * intros ([c|] & Hin & Hc); simpl in Hc; [|done].
        destruct (bool_decide (c = "")) eqn:E; [done|].
        apply bool_decide_eq_false in E. apply bool_decide_eq_true in Hc.
        exists config, c. split; [done|]. split; [by apply list_elem_of_In|done].
      * intros (config' & c & Heq & Hin & Hne & Hc). injection Heq as <-.
        exists (Some c). split; [by apply list_elem_of_In|]. simpl.
        rewrite bool_decide_eq_false_2 by done. by apply bool_decide_eq_true.
    + split; [done|]. by intros (config & c & Heq & _).
Qed.

(** X12. Asking [isTableColumnHidden] about two lists of column ids at once
    is asking about each and taking the disjunction. *)
Theorem isTableColumnHidden_app (hidden : gmap string (gset string)) tableId l l' :
  isTableColumnHidden hidden tableId (l ++ l')
  = isTableColumnHidden hidden tableId l || isTableColumnHidden hidden tableId l'.
Proof.
  unfold isTableColumnHidden.
  destruct (hidden !! tableId) as [config|].
  - destruct l as [|c l]; [simpl; by destruct l'|].
    destruct l' as [|c' l']; [by rewrite app_nil_r, orb_false_r|].
    simpl length. simpl Nat.eqb. cbv iota. apply existsb_app.
  - destruct l, l'; done.
Qed.

(** ** resolvedShell *)

Lemma truthy_Some (a : option string) m : truthy a = Some m ↔ a = Some m ∧ m ≠ "".
Proof.
  destruct a as [s|]; simpl; [|split; [done|by intros [? _]]].
  destruct (bool_decide (s = "")) eqn:E.
  - apply bool_decide_eq_true in E. split; [done|]. intros [[= ->] H]. done.
  - apply bool_decide_eq_false in E. split.
    + by intros [= ->].
    + by intros [[= ->] _].
Qed.

Lemma truthy_None (a : option string) : truthy a = None ↔ a = None ∨ a = Some "".
Proof.
  destruct a as [s|]; simpl; [|split; [by left|done]].
  destruct (bool_decide (s = "")) eqn:E.
  - apply bool_decide_eq_true in E. subst. split; [by right|done].
  - apply bool_decide_eq_false in E. split; [done|]. intros [H|[= ->]]; done.
Qed.

Lemma or_else_truthy a b m : truthy a = Some m → or_else a b = a.
Proof. unfold or_else. by intros ->. Qed.

Lemma or_else_falsy a b : truthy a = None → or_else a b = b.
Proof. unfold or_else. by intros ->. Qed.

(** X13. [resolvedShell]: a non-empty [shell] preference wins over the
    environment; an empty one counts as none; the result is the empty string
    only when [PTYSHELL] is, and undefined only when neither the preference
    nor [SHELL] is a non-empty string and [PTYSHELL] is not set. *)
Theorem resolvedShell_preference shell env :
  (∀ s, shell = Some s → s ≠ "" → resolvedShell shell env = Some s)
  ∧ resolvedShell (Some "") env = resolvedShell None env
  ∧ (resolvedShell shell env = Some "" → env !! "PTYSHELL" = Some "")
  ∧ (resolvedShell shell env = None →
     truthy shell = None ∧ truthy (env !! "SHELL") = None ∧ env !! "PTYSHELL" = None).
Proof.
  assert (Hcases : ∀ r, resolvedShell shell env = r →
            (∃ m, truthy r = Some m)
            ∨ (truthy shell = None ∧ truthy (env !! "SHELL") = None
               ∧ r = env !! "PTYSHELL")).
  { intros r <-. unfold resolvedShell.
    destruct (truthy shell) as [m|] eqn:E1.
    - left. exists m. rewrite (or_else_truthy shell _ m E1).
      by rewrite (or_else_truthy shell _ m).
    - rewrite (or_else_falsy shell _ E1).
      destruct (truthy (env !! "SHELL")) as [m|] eqn:E2.
      + left. exists m. by rewrite (or_else_truthy _ _ m).
      + right. by rewrite or_else_falsy. }
  split; [|split; [|split]].
  - intros s -> Hs. unfold resolvedShell.
    assert (Ht : truthy (Some s) = Some s) by (by apply truthy_Some).
    rewrite (or_else_truthy (Some s) _ s Ht). by rewrite (or_else_truthy (Some s) _ s).
  - done.
  - intros H. destruct (Hcases _ H) as [[m Hm]|(_ & _ & Hp)]; [|done].
    apply truthy_Some in Hm as [[= <-] Hm]. done.
  - intros H. destruct (Hcases _ H) as [[m Hm]|(? & ? & Hp)]; [done|]. done.
Qed.

(** ** fromStore and toJSON *)

Section StoreFacts.

Context {V Channel : Type}.
Variable DESCRIPTORS : gmap string (Descriptor.t V).
Variable setValue : Json → Channel → Channel.
Variable channelId : Channel → string.

Lemma fromStore_loop_other (entries : list (string * Descriptor.t V)) m (s : @UserStore.t V Channel) key :
  key ∉ entries.*1 →
  preferences (foldl (λ s kd, set_preference kd.1
                 (Descriptor.fromStore kd.2 (stored m kd.1)) s) s entries) !! key
  = preferences s !! key.
Proof.
  revert s. induction entries as [|[k d] entries IH]; intros s Hn; simpl; [done|].
  rewrite fmap_cons in Hn. apply not_elem_of_cons in Hn as [Hk Hn]. simpl in Hk.
  rewrite IH by done. simpl. by apply lookup_insert_ne.
Qed.

Lemma fromStore_loop_key (entries : list (string * Descriptor.t V)) m (s : @UserStore.t V Channel) key d :
  NoDup entries.*1 → (key, d) ∈ entries →
  preferences (foldl (λ s kd, set_preference kd.1
                 (Descriptor.fromStore kd.2 (stored m kd.1)) s) s entries) !! key
  = Some (Descriptor.fromStore d (stored m key)).
Proof.
  revert s. induction entries as [|[k d'] entries IH]; intros s Hnd Hin.
  - by apply elem_of_nil in Hin.
  - rewrite fmap_cons in Hnd. apply NoDup_cons in Hnd as [Hk Hnd]. simpl in *.
    apply elem_of_cons in Hin as [Heq|Hin].
    + injection Heq as -> ->. rewrite fromStore_loop_other by done. simpl.
      apply lookup_insert_eq.
    + by apply IH.
Qed.

Lemma fromStore_loop_frame (entries : list (string * Descriptor.t V)) m (s : @UserStore.t V Channel) :
  let s' := foldl (λ s kd, set_preference kd.1
                     (Descriptor.fromStore kd.2 (stored m kd.1)) s) s entries in
  lastSeenAppVersion s' = lastSeenAppVersion s
  ∧ selectedUpdateChannel s' = selectedUpdateChannel s
  ∧ log s' = log s.
Proof.
  revert s. induction entries as [|[k d] entries IH]; intros s; simpl; [done|].
  by destruct (IH (set_preference k (Descriptor.fromStore d (stored m k)) s)) as (-> & -> & ->).
Qed.

Lemma not_in_keys (key : string) :
  DESCRIPTORS !! key = None → key ∉ (map_to_list DESCRIPTORS).*1.
Proof.
  intros Hn Hin. apply list_elem_of_fmap in Hin as ([k d] & -> & Hin).
  apply elem_of_map_to_list in Hin. simpl in Hn. congruence.
Qed.

Lemma fromStore_lookup m (s : @UserStore.t V Channel) key :
  preferences (fromStore DESCRIPTORS setValue m s) !! key
  = match DESCRIPTORS !! key with
    | Some d => Some (Descriptor.fromStore d (stored m key))
    | None => preferences s !! key
    end.
Proof.
  assert (Hloop : ∀ s0 : @UserStore.t V Channel,
            preferences (fromStore_entries DESCRIPTORS m s0) !! key
            = match DESCRIPTORS !! key with
              | Some d => Some (Descriptor.fromStore d (stored m key))
              | None => preferences s0 !! key
              end).
  { intros s0. unfold fromStore_entries. destruct (DESCRIPTORS !! key) as [d|] eqn:E.
    - apply fromStore_loop_key; [apply NoDup_fst_map_to_list|].
      by apply elem_of_map_to_list.
    - by apply fromStore_loop_other, not_in_keys. }
  unfold fromStore.
  destruct (stored m "updateChannel") as [j|]; [destruct (truthyJ j)|]; simpl;
    rewrite Hloop; destruct (DESCRIPTORS !! key); try done;
    by destruct (truthy (storedVersion m)).
Qed.

Lemma fromStore_version m (s : @UserStore.t V Channel) :
  lastSeenAppVersion (fromStore DESCRIPTORS setValue m s)
  = default (lastSeenAppVersion s) (truthy (storedVersion m)).
Proof.
  unfold fromStore, fromStore_entries.
  match goal with |- context [foldl ?f ?s0 ?l] =>
    destruct (fromStore_loop_frame l m s0) as (Hv & _ & _) end.
  destruct (stored m "updateChannel") as [j|]; [destruct (truthyJ j)|]; simpl;
    rewrite Hv; by destruct (truthy (storedVersion m)).
Qed.

Lemma fromEntries_other (entries : list (string * option Json)) (o : gmap string Json) key :
  key ∉ entries.*1 →
  foldl (λ o kv, match kv.2 with
                 | Some j => <[kv.1 := j]> o
                 | None => delete kv.1 o
                 end) o entries !! key = o !! key.
Proof.
  revert o. induction entries as [|[k v] entries IH]; intros o Hn; simpl; [done|].
  rewrite fmap_cons in Hn. apply not_elem_of_cons in Hn as [Hk Hn]. simpl in Hk.
  rewrite IH by done. destruct v; [by apply lookup_insert_ne|by apply lookup_delete_ne].
Qed.

Lemma fromEntries_key (entries : list (string * option Json)) (o : gmap string Json) key v :
  NoDup entries.*1 → (key, v) ∈ entries →
  foldl (λ o kv, match kv.2 with
                 | Some j => <[kv.1 := j]> o
                 | None => delete kv.1 o
                 end) o entries !! key = v.
Proof.
  revert o. induction entries as [|[k v'] entries IH]; intros o Hnd Hin.
  - by apply elem_of_nil in Hin.
  - rewrite fmap_cons in Hnd. apply NoDup_cons in Hnd as [Hk Hnd]. simpl in *.
    apply elem_of_cons in Hin as [Heq|Hin].
    + injection Heq as -> ->. rewrite fromEntries_other by done.
      destruct v'; [apply lookup_insert_eq|apply lookup_delete_eq].
    + by apply IH.
Qed.

Lemma toJSON_lookup (s : @UserStore.t V Channel) key :
  modelPreferences (toJSON DESCRIPTORS channelId s) !! key
  = if decide (key = "updateChannel")
    then Some (JString (channelId (selectedUpdateChannel s)))
    else DESCRIPTORS !! key ≫= λ d, Descriptor.toStore d (preferences s !! key).
Proof.
  unfold toJSON. simpl. destruct (decide (key = "updateChannel")) as [->|Hne].
  - apply lookup_insert_eq.
  - rewrite lookup_insert_ne by done. unfold fromEntries.
    destruct (DESCRIPTORS !! key) as [d|] eqn:E; simpl.
    + apply fromEntries_key.
      * rewrite <- list_fmap_compose. apply NoDup_fst_map_to_list.
      * apply list_elem_of_fmap. exists (key, d). split; [done|].
        by apply elem_of_map_to_list.
    + rewrite fromEntries_other; [apply lookup_empty|].
      rewrite <- list_fmap_compose. by apply not_in_keys.
Qed.

(** X14. [fromStore] sets every preference that [DESCRIPTORS] knows from the
    stored value, or from nothing when the file has no value for it, and
    leaves every other field alone; [lastSeenAppVersion] is taken over only
    when the stored one is a non-empty string. *)
Theorem fromStore_preferences m (s : @UserStore.t V Channel) key :
  preferences (fromStore DESCRIPTORS setValue m s) !! key
  = match DESCRIPTORS !! key with
    | Some d => Some (Descriptor.fromStore d (stored m key))
    | None => preferences s !! key
    end
  ∧ lastSeenAppVersion (fromStore DESCRIPTORS setValue m s)
    = match storedVersion m with
      | Some v => if bool_decide (v = "") then lastSeenAppVersion s else v
      | None => lastSeenAppVersion s
      end.
Proof.
  split; [apply fromStore_lookup|]. rewrite fromStore_version.
  destruct (storedVersion m) as [v|]; simpl; [|done].
  by destruct (bool_decide (v = "")).
Qed.

(** X15. Loading the same file twice gives the preferences and the version
    that loading it once gives. *)
Theorem fromStore_idempotent m (s : @UserStore.t V Channel) :
  let once := fromStore DESCRIPTORS setValue m s in
  let twice := fromStore DESCRIPTORS setValue m once in
  preferences twice = preferences once
  ∧ lastSeenAppVersion twice = lastSeenAppVersion once.
Proof.
  intros once twice. subst once twice. split.
  - apply map_eq. intros key. rewrite !fromStore_lookup.
    by destruct (DESCRIPTORS !! key).
  - rewrite !fromStore_version. by destruct (truthy (storedVersion m)).
Qed.

(** X16. What [toJSON] writes: under [updateChannel] the id of the selected
    update channel, whatever [DESCRIPTORS] has for that key, and under every
    other key what the descriptor of the key makes of the preference; keys
    without a descriptor are not written. *)
Theorem toJSON_preferences (s : @UserStore.t V Channel) key :
  modelPreferences (toJSON DESCRIPTORS channelId s) !! key
  = (if decide (key = "updateChannel")
     then Some (JString (channelId (selectedUpdateChannel s)))
     else DESCRIPTORS !! key ≫= λ d, Descriptor.toStore d (preferences s !! key))
  ∧ modelVersion (toJSON DESCRIPTORS channelId s) = lastSeenAppVersion s.
Proof. split; [apply toJSON_lookup|done]. Qed.

(** X17. Saving after loading: under a key other than [updateChannel],
    [toJSON] writes what the descriptor of the key makes of the value that it
    has read from the file, whatever the store held before, and nothing for a
    key that [DESCRIPTORS] does not know.  So a stored preference comes back
    as it was when its descriptor takes it there and back, and a stored key
    that [DESCRIPTORS] does not know is lost. *)
Theorem toJSON_fromStore m (s : @UserStore.t V Channel) key :
  key ≠ "updateChannel" →
  let saved := modelPreferences (toJSON DESCRIPTORS channelId
                                   (fromStore DESCRIPTORS setValue m s)) in
  saved !! key
  = (DESCRIPTORS !! key ≫= λ d,
       Descriptor.toStore d (Some (Descriptor.fromStore d (stored m key))))
  ∧ (∀ d, DESCRIPTORS !! key = Some d →
          Descriptor.toStore d (Some (Descriptor.fromStore d (stored m key))) = stored m key →
          saved !! key = stored m key)
  ∧ (DESCRIPTORS !! key = None → saved !! key = None).
Proof.
  intros Hne saved. subst saved. rewrite toJSON_lookup, decide_False by done.
  rewrite fromStore_lookup. split; [|split].
  - by destruct (DESCRIPTORS !! key).
  - intros d Hd Hround. rewrite Hd. simpl. done.
  - intros Hd. by rewrite Hd.
Qed.

(** X18. After a file without a colour theme has been loaded, [resetTheme]
    changes nothing. *)
Theorem resetTheme_after_fromStore m (s : @UserStore.t V Channel) :
  stored m "colorTheme" = None →
  resetTheme DESCRIPTORS (fromStore DESCRIPTORS setValue m s)
  = fromStore DESCRIPTORS setValue m s.
Proof.
  intros Hm. unfold resetTheme.
  destruct (DESCRIPTORS !! "colorTheme") as [d|] eqn:E; [|done].
  pose proof (fromStore_lookup m s "colorTheme") as Hl. rewrite E, Hm in Hl.
  destruct (fromStore DESCRIPTORS setValue m s) as [v p c l]. simpl in *.
  unfold set_preference. simpl. f_equal. by apply insert_id.
Qed.

End StoreFacts.

(** Once the news have been seen, the version is not new any more, as long
    as [semver.gt] does not put a version above itself. *)
Lemma saveLastSeenAppVersion_seen {V Channel : Type} (getAppVersion : string)
    (semver_gt : string → string → bool) (s : @UserStore.t V Channel) :
  semver_gt getAppVersion getAppVersion = false →
  let s' := saveLastSeenAppVersion getAppVersion s in
  isNewVersion getAppVersion semver_gt s' = false
  ∧ log s' = log s ++ [Emitted "app" "whats-new-seen"]
  ∧ preferences s' = preferences s.
Proof. intros Hgt s'. by repeat split. Qed.

Lemma toJSON_fromStore_witness :
  let saved := modelPreferences
                 (toJSON two_preferences id
                    (fromStore two_preferences channel_by_id settings_file blank_store)) in
  saved !! "shell" = Some (JString "/bin/zsh")
  ∧ saved !! "telemetry" = None
  ∧ saved !! "colorTheme" = None.
Proof.
  intros saved.
  destruct (toJSON_fromStore two_preferences channel_by_id id settings_file blank_store
              "shell") as (_ & Hback & _); [discriminate|].
  destruct (toJSON_fromStore two_preferences channel_by_id id settings_file blank_store
              "telemetry") as (_ & _ & Hlost); [discriminate|].
  destruct (toJSON_fromStore two_preferences channel_by_id id settings_file blank_store
              "colorTheme") as (Hsaved & _ & _); [discriminate|].
  split; [|split].
  - apply (Hback (string_preference "")); reflexivity.
  - apply Hlost. reflexivity.
  - exact Hsaved.
Defined.

Lemma resetTheme_after_fromStore_witness :
  let loaded := fromStore two_preferences channel_by_id settings_file blank_store in
  resetTheme two_preferences loaded = loaded.
Proof.
  intros loaded.
  apply (resetTheme_after_fromStore two_preferences channel_by_id settings_file blank_store).
  reflexivity.
Defined.
